(** * Client-side trace samplers of [ddtrace/sampler.py]

    A shallow embedding of the samplers of [ddtrace.sampler] and the
    properties its specification states about them.

    Numbers.  Trace identifiers, hashed identifiers, ticks and counters are
    Python [int]s, hence [Z].  A sample rate is a Python number: it is
    embedded as an exact rational [Q].  The only arithmetic the source does
    on a rate is [sample_rate * MAX_TRACE_ID], a scaling by [2 ^ 64], and
    comparisons with [int]s; for an [int] rate both are exact, Python
    compares an [int] with a [float] by value, and for a finite binary float
    the scaling is exact as long as it does not overflow, which it cannot
    for a rate of at most [1] (module [Binary64Facts] below).
    Not-a-number and infinite rates are outside the embedding. *)

From Stdlib Require Import ZArith QArith Qpower Lia String.
From Stdlib Require Import Floats.SpecFloat.
From stdpp Require Import base option list gmap strings.

Local Open Scope Z_scope.

(** ** Module constants *)

Definition MAX_TRACE_ID : Z := 2 ^ 64.

Definition KNUTH_FACTOR : Z := 1111111111111111111.

Definition SAMPLE_RATE_METRIC_KEY : string := "_sample_rate".

(** ** Rates given as floats

    A Python [float] is an IEEE 754 binary64 number, [spec_float] with
    precision 53 and maximal exponent 1024.  [sample_rate * MAX_TRACE_ID]
    with a [float] rate converts [MAX_TRACE_ID] to the float [2 ^ 64] and
    multiplies, rounding to nearest. *)

Module Binary64.

Definition prec : Z := 53.
Definition emax : Z := 1024.

(** [float(MAX_TRACE_ID)]: [2 ^ 64 = 2 ^ 52 * 2 ^ 12]. *)
Definition float_of_MAX_TRACE_ID : spec_float :=
  S754_finite false (2 ^ 52)%positive 12.

Definition mul : spec_float → spec_float → spec_float := SFmul prec emax.

Definition valid : spec_float → bool := valid_binary prec emax.

(** The number a finite float stands for: its rate in the embedding. *)
Definition finite_value (s : bool) (m : positive) (e : Z) : Q :=
  (inject_Z (cond_Zopp s (Zpos m)) * 2 ^ e)%Q.

End Binary64.

(** ** The span a sampler decides on *)

(** Modelled from the spec: the span class is not defined in
    [ddtrace/sampler.py]; the samplers only read [span.trace_id] and call
    [span.set_sampled], [span.set_metric] and [span.set_sampling_priority].
    Sections 3 and 6 of the specification give the unit an optional
    identifier, a keep flag that is initially unset, and an optional tagging
    capability; section 4.4 gives it a separate sampling-priority signal.
    [trace_id = None] stands for a span without a [trace_id] attribute and
    [has_set_metric = false] for one without a callable [set_metric]. *)
Record Span : Type := mkSpan {
  trace_id : option Z;
  has_set_metric : bool;
  sampled : option bool;
  sampling_priority : option Z;
  metrics : gmap string Q
}.

(** Modelled from the spec: [span.set_sampled(b)] writes the keep flag. *)
Definition set_sampled (span : Span) (b : bool) : Span :=
  {| trace_id := trace_id span;
     has_set_metric := has_set_metric span;
     sampled := Some b;
     sampling_priority := sampling_priority span;
     metrics := metrics span |}.

(** Modelled from the spec: [span.set_metric(key, value)] records a numeric
    tag under [key]. *)
Definition set_metric (span : Span) (key : string) (value : Q) : Span :=
  {| trace_id := trace_id span;
     has_set_metric := has_set_metric span;
     sampled := sampled span;
     sampling_priority := sampling_priority span;
     metrics := <[key := value]> (metrics span) |}.

(** Modelled from the spec: [span.set_sampling_priority(p)] writes the
    sampling-priority signal, a channel of its own. *)
Definition set_sampling_priority (span : Span) (p : Z) : Span :=
  {| trace_id := trace_id span;
     has_set_metric := has_set_metric span;
     sampled := sampled span;
     sampling_priority := Some p;
     metrics := metrics span |}.

(** A span as the tracer creates it: nothing decided, nothing tagged. *)
Definition example_span (tid : option Z) : Span :=
  {| trace_id := tid; has_set_metric := true; sampled := None;
     sampling_priority := None; metrics := ∅ |}.

(** ** [class AllSampler] *)

Module AllSampler.

(** [span.sampled = True] *)
Definition sample (span : Span) : Span :=
  {| trace_id := trace_id span;
     has_set_metric := has_set_metric span;
     sampled := Some true;
     sampling_priority := sampling_priority span;
     metrics := metrics span |}.

End AllSampler.

(** ** [class RateSampler] *)

Module RateSampler.

Record t : Type := mk {
  sample_rate : Q;
  sampling_id_threshold : Q
}.

(** [set_sample_rate(self, sample_rate)]: both attributes are overwritten,
    nothing of the previous object survives. *)
Definition set_sample_rate (self : t) (sample_rate : Q) : t :=
  {| sample_rate := sample_rate;
     sampling_id_threshold := (sample_rate * inject_Z MAX_TRACE_ID)%Q |}.

(** The [if sample_rate <= 0: ... elif sample_rate > 1: ...] of
    [__init__]; the literal [1] of the source is the integer one. *)
Definition init_rate (sample_rate : Q) : Q :=
  if Qle_bool sample_rate 0 then 1%Q
  else if negb (Qle_bool sample_rate 1) then 1%Q
  else sample_rate.

(** [__init__(self, sample_rate)].  The object has no attribute before
    [set_sample_rate] runs; the placeholder passed here is overwritten. *)
Definition init (sample_rate : Q) : t :=
  set_sample_rate {| sample_rate := 0; sampling_id_threshold := 0 |}
                  (init_rate sample_rate).

(** [(span.trace_id * KNUTH_FACTOR) % MAX_TRACE_ID]; Python's [%] with a
    positive modulus is [Z.modulo]. *)
Definition hash_id (trace_id : Z) : Z :=
  (trace_id * KNUTH_FACTOR) mod MAX_TRACE_ID.

(** The [try ... except AttributeError] around the identifier: [rnd] is
    the value [getrandbits(64)] returns when it is called. *)
Definition processed_id (span : Span) (rnd : Z) : Z :=
  match trace_id span with
  | Some tid => hash_id tid
  | None => rnd
  end.

(** [sample(self, span)].  The method reads [self] and never assigns to
    it, so only the span is returned. *)
Definition sample (self : t) (rnd : Z) (span : Span) : Span :=
  let span :=
    set_sampled span
      (Qle_bool (inject_Z (processed_id span rnd))
                (sampling_id_threshold self)) in
  if has_set_metric span
  then set_metric span SAMPLE_RATE_METRIC_KEY (sample_rate self)
  else span.

End RateSampler.

(** ** [class DistributedSampled] *)

Module DistributedSampled.

Record t : Type := mk { span : Span }.

(** [__init__(self, span)] *)
Definition init (span : Span) : t := {| span := span |}.

(** [set_sampled(self, sampled)]:
    [self.span.set_sampling_priority(1 if sampled else 0)] *)
Definition set_sampled (self : t) (sampled : bool) : t :=
  {| span := set_sampling_priority (span self) (if sampled then 1 else 0) |}.

End DistributedSampled.

(** ** [class ThroughputSampler] *)

Module ThroughputSampler.

Definition BUCKETS_PER_S : Z := 10.
Definition BUFFER_DURATION : Z := 2.
Definition BUFFER_SIZE : Z := BUCKETS_PER_S * BUFFER_DURATION.

(** Largest value an item of [array.array('L')] holds: a C
    [unsigned long], eight bytes on the LP64 platforms the tracer runs
    on. *)
Definition ULONG_MAX : Z := 2 ^ 64 - 1.

(** The attributes of the sampler.  [_buffer_lock] is not a field: the
    body of [sample] runs with the lock held, one call at a time, which
    is the sequential reading given here. *)
Record t : Type := mk {
  buffer_limit : Z;
  counter : Z;
  counter_buffer : list Z;
  last_track_time : Z
}.

(** [__init__(self, tps)]; [tps] is a number of traces, an [int]. *)
Definition init (tps : Z) : t :=
  {| buffer_limit := tps * BUFFER_DURATION;
     counter := 0;
     counter_buffer := replicate (Z.to_nat BUFFER_SIZE) 0;
     last_track_time := 0 |}.

(** [key_from_time(self, t)]: Python's [%] with the positive modulus
    [BUFFER_SIZE]. *)
Definition key_from_time (t : Z) : Z := t mod BUFFER_SIZE.

(** *** Mutation and exceptions

    [sample] mutates the sampler and the span it is given, and the array
    operations can raise.  What has been written before a [raise] stays
    written, so a computation returns its result together with the
    objects as they are when it stops. *)

Inductive exn : Type := IndexError | OverflowError.

Inductive result (A : Type) : Type :=
| Ok (a : A)
| Raise (e : exn).
Arguments Ok {A} a.
Arguments Raise {A} e.

Record world : Type := mkWorld { self : t; span : Span }.

Definition M (A : Type) : Type := world → result A * world.

#[export] Instance M_ret : MRet M := λ A a w, (Ok a, w).

#[export] Instance M_bind : MBind M := λ A B f m w,
  match m w with
  | (Ok a, w') => f a w'
  | (Raise e, w') => (Raise e, w')
  end.

Definition gets {A : Type} (f : t → A) : M A := λ w, (Ok (f (self w)), w).

Definition modify (f : t → t) : M unit :=
  λ w, (Ok (), {| self := f (self w); span := span w |}).

Definition modify_span (f : Span → Span) : M unit :=
  λ w, (Ok (), {| self := self w; span := f (span w) |}).

Definition set_counter (c : Z) (s : t) : t :=
  {| buffer_limit := buffer_limit s; counter := c;
     counter_buffer := counter_buffer s;
     last_track_time := last_track_time s |}.

Definition set_counter_buffer (b : list Z) (s : t) : t :=
  {| buffer_limit := buffer_limit s; counter := counter s;
     counter_buffer := b;
     last_track_time := last_track_time s |}.

Definition set_last_track_time (n : Z) (s : t) : t :=
  {| buffer_limit := buffer_limit s; counter := counter s;
     counter_buffer := counter_buffer s;
     last_track_time := n |}.

(** Python's index normalisation for a sequence of length [len]: a
    negative index counts from the end, anything else out of range is an
    [IndexError]. *)
Definition py_index (len : nat) (i : Z) : option nat :=
  if bool_decide (0 ≤ i < Z.of_nat len) then Some (Z.to_nat i)
  else if bool_decide (- Z.of_nat len ≤ i < 0)
       then Some (Z.to_nat (i + Z.of_nat len))
       else None.

(** [self.counter_buffer[i]] *)
Definition getitem (i : Z) : M Z := λ w,
  match py_index (length (counter_buffer (self w))) i
          ≫= (λ n, counter_buffer (self w) !! n) with
  | Some v => (Ok v, w)
  | None => (Raise IndexError, w)
  end.

(** [self.counter_buffer[i] = v]: the index is checked, then the value is
    converted to an [unsigned long], which overflows outside
    [0 .. ULONG_MAX]. *)
Definition setitem (i : Z) (v : Z) : M unit :=
  λ w,
  match py_index (length (counter_buffer (self w))) i with
  | None => (Raise IndexError, w)
  | Some n =>
      if bool_decide (0 ≤ v ≤ ULONG_MAX)
      then modify (λ s, set_counter_buffer (<[n := v]> (counter_buffer s)) s) w
      else (Raise OverflowError, w)
  end.

(** [for x in l: body(x)] *)
Fixpoint for_ {A : Type} (l : list A) (body : A → M unit) : M unit :=
  match l with
  | [] => mret ()
  | x :: l => body x ;; for_ l body
  end.

(** One turn of the loop of [expire_buckets]. *)
Definition expire_bucket (start i : Z) : M unit :=
  let key := key_from_time (start + i + 1) in
  c ← gets counter;
  v ← getitem key;
  modify (set_counter (c - v)) ;;
  setitem key 0.

(** [min(self.BUFFER_SIZE, end - start)] *)
Definition period (start end_ : Z) : Z := Z.min BUFFER_SIZE (end_ - start).

(** [expire_buckets(self, start, end)]; [range(period)] is
    [seqZ 0 period], empty when [period] is not positive. *)
Definition expire_buckets (start end_ : Z) : M unit :=
  for_ (seqZ 0 (period start end_)) (expire_bucket start).

(** The window advance of [sample]:
    [if now > last_track_time: ...]. *)
Definition advance_window (now : Z) : M unit :=
  last_track_time ← gets last_track_time;
  if bool_decide (now > last_track_time)
  then modify (set_last_track_time now) ;;
       expire_buckets last_track_time now
  else mret ().

(** The decision of [sample], from [sampled = ...] on. *)
Definition decide_span (now : Z) : M unit :=
  c ← gets counter;
  limit ← gets buffer_limit;
  let sampled := bool_decide (c < limit) in
  modify_span (λ sp, set_sampled sp sampled) ;;
  if sampled
  then c ← gets counter;
       modify (set_counter (c + 1)) ;;
       let key := key_from_time now in
       v ← getitem key;
       setitem key (v + 1)
  else mret ().

(** [sample(self, span)] with the lock held.  [now] is the tick
    [int(span.start * self.BUCKETS_PER_S)], which the source computes in
    floating point from the span's timestamp; the span that is returned is
    the one in the resulting [world]. *)
Definition sample (now : Z) : M unit :=
  advance_window now ;; decide_span now.

(** [sample] applied to a span by a sampler. *)
Definition sample_span (s : t) (now : Z) (sp : Span) : result unit * world :=
  sample now {| self := s; span := sp |}.

(** *** Callers

    The sampler is driven by a caller that hands it one span after another;
    a unit is a span together with its tick.  An exception that [sample]
    raises ends the run, the span it was deciding included. *)

Fixpoint run (s : t) (units : list (Z * Span))
  : list Span * result unit * t :=
  match units with
  | [] => ([], Ok (), s)
  | (now, sp) :: units =>
      match sample_span s now sp with
      | (Ok _, w) =>
          let '(sps, r, s') := run (self w) units in
          (span w :: sps, r, s')
      | (Raise e, w) => ([span w], Raise e, self w)
      end
  end.

(** The states of a sampler built with [ThroughputSampler(tps)] after any
    number of calls of [sample] that returned. *)
Inductive reachable (tps : Z) : t → Prop :=
| reachable_init : reachable tps (init tps)
| reachable_sample (s : t) (now : Z) (sp : Span) (w : world) :
    reachable tps s →
    sample_span s now sp = (Ok (), w) →
    reachable tps (self w).

(** [sum(self.counter_buffer)] *)
Definition sum_buckets (buckets : list Z) : Z := foldr Z.add 0 buckets.

(** What [array.array('L', [0] * BUFFER_SIZE)] guarantees of the buffer:
    its length, which nothing changes, and the range of its items. *)
Definition well_formed (s : t) : Prop :=
  length (counter_buffer s) = Z.to_nat BUFFER_SIZE
  ∧ Forall (λ v, 0 ≤ v ≤ ULONG_MAX) (counter_buffer s).

(** The running total is the sum of the buckets. *)
Definition balanced (s : t) : Prop :=
  counter s = sum_buckets (counter_buffer s).

#[export] Instance well_formed_dec (s : t) : Decision (well_formed s).
Proof. unfold well_formed. apply _. Defined.

#[export] Instance balanced_dec (s : t) : Decision (balanced s).
Proof. unfold balanced. apply _. Defined.

(** The number of spans whose keep flag was set to [b]. *)
Definition count_sampled (b : bool) (sps : list Span) : nat :=
  length (filter (λ sp, sampled sp = Some b) sps).

(** The key [k] is one the loop of [expire_buckets start end_] visits: the
    turn that would reach it comes before the loop ends. *)
Definition visited (start end_ k : Z) : Prop :=
  (k - start - 1) mod BUFFER_SIZE < period start end_.

#[export] Instance visited_dec (start end_ k : Z) :
  Decision (visited start end_ k).
Proof. unfold visited. apply _. Defined.

(** *** Decisions over time

    A sampler together with what it has decided so far: the ticks it was
    called with, the newest first, each with the flag it set on the span.
    The clock of the caller does not go back: every call comes at or after
    the last tracked tick. *)
Inductive timeline (tps : Z) : list (Z * bool) → t → Prop :=
| timeline_init : timeline tps [] (init tps)
| timeline_sample (hist : list (Z * bool)) (s : t) (now : Z) (sp : Span)
    (w : world) (b : bool) :
    timeline tps hist s →
    last_track_time s ≤ now →
    sample_span s now sp = (Ok (), w) →
    sampled (span w) = Some b →
    timeline tps ((now, b) :: hist) (self w).

(** A kept decision among the [BUFFER_SIZE] ticks that end with tick [T]. *)
Definition kept_in_window (T : Z) (e : Z * bool) : Prop :=
  e.2 = true ∧ T - BUFFER_SIZE < e.1 ≤ T.

(** A kept decision of that window whose tick has the key [k]. *)
Definition kept_in_bucket (T k : Z) (e : Z * bool) : Prop :=
  kept_in_window T e ∧ key_from_time e.1 = k.

#[export] Instance kept_in_window_dec (T : Z) (e : Z * bool) :
  Decision (kept_in_window T e).
Proof. unfold kept_in_window. apply _. Defined.

#[export] Instance kept_in_bucket_dec (T k : Z) (e : Z * bool) :
  Decision (kept_in_bucket T k e).
Proof. unfold kept_in_bucket. apply _. Defined.

Definition count_window (T : Z) (hist : list (Z * bool)) : nat :=
  length (filter (kept_in_window T) hist).

Definition count_bucket (T k : Z) (hist : list (Z * bool)) : nat :=
  length (filter (kept_in_bucket T k) hist).

End ThroughputSampler.

(** * Properties *)

(** ** Float rates and their embedding *)

Module Binary64Facts.
Import Binary64.

Lemma digits2_pos_size (p : positive) : digits2_pos p = Pos.size p.
Proof. induction p; simpl; congruence. Qed.

Lemma digits2_log2 (p : positive) :
  Zpos (digits2_pos p) = Z.log2 (Zpos p) + 1.
Proof.
  destruct p; simpl; rewrite ?digits2_pos_size; lia.
Qed.

Lemma shr_1_double (z : Z) :
  0 < z →
  shr_1 {| shr_m := 2 * z; shr_r := false; shr_s := false |}
  = {| shr_m := z; shr_r := false; shr_s := false |}.
Proof. destruct z; try lia. reflexivity. Qed.

Lemma pow2_xI (p : positive) : 2 ^ Zpos p~1 = 2 * (2 ^ Zpos p * 2 ^ Zpos p).
Proof.
  replace (Zpos p~1) with (Zpos p + Zpos p + 1) by lia.
  rewrite !Z.pow_add_r by lia. change (2 ^ 1) with 2. ring.
Qed.

Lemma pow2_xO (p : positive) : 2 ^ Zpos p~0 = 2 ^ Zpos p * 2 ^ Zpos p.
Proof.
  replace (Zpos p~0) with (Zpos p + Zpos p) by lia.
  rewrite Z.pow_add_r by lia. reflexivity.
Qed.

Lemma pow2_pos (n : Z) : 0 ≤ n → 0 < 2 ^ n.
Proof. intros H. apply Z.pow_pos_nonneg; lia. Qed.

Lemma iter_shr_1_exact (p : positive) (z : Z) :
  0 < z →
  SpecFloat.iter_pos shr_1 p
    {| shr_m := z * 2 ^ Zpos p; shr_r := false; shr_s := false |}
  = {| shr_m := z; shr_r := false; shr_s := false |}.
Proof.
  revert z. induction p as [p IH | p IH |]; intros z Hz.
  - change (SpecFloat.iter_pos shr_1 p~1 ?x)
      with (SpecFloat.iter_pos shr_1 p (SpecFloat.iter_pos shr_1 p (shr_1 x))).
    pose proof (pow2_pos (Zpos p) ltac:(lia)) as Hp.
    replace (z * 2 ^ Zpos p~1) with (2 * ((z * 2 ^ Zpos p) * 2 ^ Zpos p))
      by (rewrite pow2_xI; ring).
    rewrite shr_1_double by nia. rewrite IH by nia. apply IH, Hz.
  - change (SpecFloat.iter_pos shr_1 p~0 ?x)
      with (SpecFloat.iter_pos shr_1 p (SpecFloat.iter_pos shr_1 p x)).
    pose proof (pow2_pos (Zpos p) ltac:(lia)) as Hp.
    replace (z * 2 ^ Zpos p~0) with ((z * 2 ^ Zpos p) * 2 ^ Zpos p)
      by (rewrite pow2_xO; ring).
    rewrite IH by nia. apply IH, Hz.
  - change (2 ^ 1) with 2. rewrite (Z.mul_comm z 2). apply shr_1_double, Hz.
Qed.

(** Shifting an exact record right by [n] places loses nothing when the
    mantissa is a multiple of [2 ^ n]. *)
Lemma shr_exact (z e n : Z) :
  0 < z → 0 ≤ n →
  shr {| shr_m := z * 2 ^ n; shr_r := false; shr_s := false |} e n
  = ({| shr_m := z; shr_r := false; shr_s := false |}, e + n).
Proof.
  intros Hz Hn. destruct n as [| p | p]; [| | lia].
  - simpl. rewrite Z.mul_1_r, Z.add_0_r. reflexivity.
  - unfold shr. rewrite iter_shr_1_exact by exact Hz. reflexivity.
Qed.

Lemma valid_finite (s : bool) (m : positive) (e : Z) :
  valid (S754_finite s m e) = true →
  1 ≤ Zpos (digits2_pos m) ≤ 53
  ∧ - 1074 ≤ e ≤ 971
  ∧ (Zpos (digits2_pos m) = 53 ∨ e = - 1074).
Proof.
  unfold valid, valid_binary, bounded, canonical_mantissa, fexp, emin,
    prec, emax.
  intros H. apply andb_prop in H as [Hc He].
  apply Z.eqb_eq in Hc. apply Z.leb_le in He. lia.
Qed.

(** Multiplying a finite binary64 number by [2 ^ 64] is exact as long as the
    product stays below [2 ^ 1024 / 2 ^ 64]: the result is finite, valid and
    its value is the value of the operand times [2 ^ 64]. *)
Theorem mul_MAX_TRACE_ID_exact (s : bool) (m : positive) (e : Z) :
  valid (S754_finite s m e) = true →
  Zpos (digits2_pos m) + e ≤ 960 →
  ∃ m' e',
    mul (S754_finite s m e) float_of_MAX_TRACE_ID = S754_finite s m' e'
    ∧ valid (S754_finite s m' e') = true
    ∧ (finite_value s m' e' == finite_value s m e * inject_Z (2 ^ 64))%Q.
Proof.
  intros Hvalid Hsmall.
  destruct (valid_finite _ _ _ Hvalid) as (Hd & He & Hcanon).
  set (d := Zpos (digits2_pos m)) in *.
  assert (Hlog : Z.log2 (Zpos m) = d - 1)
    by (unfold d; rewrite digits2_log2; lia).
  assert (Hz : ∃ mz, Zpos mz = Zpos m * 2 ^ (53 - d)).
  { pose proof (pow2_pos (53 - d) ltac:(lia)).
    destruct (Zpos m * 2 ^ (53 - d)) as [| mz |] eqn:Ez; try nia.
    exists mz. reflexivity. }
  destruct Hz as [mz Ez].
  assert (Hprod : Zpos (m * 2 ^ 52) = Zpos mz * 2 ^ (d - 1)).
  { rewrite Ez, <- Z.mul_assoc, <- Z.pow_add_r by lia.
    replace (53 - d + (d - 1)) with 52 by lia. reflexivity. }
  assert (Hdz : Z.log2 (Zpos mz) = 52).
  { rewrite Ez, Z.log2_mul_pow2 by lia. lia. }
  exists mz, (e + d + 11).
  assert (Hmul : mul (S754_finite s m e) float_of_MAX_TRACE_ID
                 = S754_finite s mz (e + d + 11)).
  { unfold mul, float_of_MAX_TRACE_ID, SFmul, binary_round_aux.
    rewrite xorb_false_r.
    assert (H1 : shr_fexp prec emax (Zpos (m * 2 ^ 52)) (e + 12) loc_Exact
                 = ({| shr_m := Zpos mz; shr_r := false; shr_s := false |},
                    e + d + 11)).
    { unfold shr_fexp, Zdigits2, fexp, emin, prec, emax, shr_record_of_loc.
      rewrite digits2_log2, Hprod, Z.log2_mul_pow2 by lia.
      replace (Z.max _ _ - (e + 12)) with (d - 1)
        by (rewrite Hdz; lia).
      rewrite shr_exact by lia. f_equal. lia. }
    rewrite H1. cbn [shr_m loc_of_shr_record round_nearest_even].
    assert (H2 : shr_fexp prec emax (Zpos mz) (e + d + 11) loc_Exact
                 = ({| shr_m := Zpos mz; shr_r := false; shr_s := false |},
                    e + d + 11)).
    { unfold shr_fexp, Zdigits2, fexp, emin, prec, emax, shr_record_of_loc.
      rewrite digits2_log2, Hdz.
      replace (Z.max _ _ - (e + d + 11)) with 0 by lia. reflexivity. }
    rewrite H2. cbn [shr_m].
    replace (e + d + 11 <=? emax - prec) with true; [reflexivity |].
    symmetry. apply Z.leb_le. unfold emax, prec. lia. }
  split; [exact Hmul |]. split.
  - unfold valid, valid_binary, bounded, canonical_mantissa, fexp, emin,
      prec, emax.
    rewrite digits2_log2, Hdz. apply andb_true_intro. split.
    + apply Z.eqb_eq. lia.
    + apply Z.leb_le. lia.
  - unfold finite_value.
    assert (Hmz : cond_Zopp s (Zpos mz)
                  = cond_Zopp s (Zpos m) * 2 ^ (53 - d)).
    { destruct s; unfold cond_Zopp; rewrite Ez; ring. }
    rewrite Hmz, inject_Z_mult.
    rewrite (Zpower_Qpower 2 (53 - d)) by lia.
    rewrite (Zpower_Qpower 2 64) by lia.
    change (inject_Z 2) with 2%Q.
    rewrite <- !Qmult_assoc. apply Qmult_comp; [reflexivity |].
    rewrite <- !Qpower_plus by discriminate.
    replace (53 - d + (e + d + 11)) with (e + 64) by lia. reflexivity.
Qed.

(** A rate of at most one is far below the overflow bound. *)
Lemma rate_below_one_small (s : bool) (m : positive) (e : Z) :
  valid (S754_finite s m e) = true →
  (finite_value false m e <= 1)%Q →
  Zpos (digits2_pos m) + e ≤ 960.
Proof.
  intros Hvalid Hle. destruct (valid_finite _ _ _ Hvalid) as (Hd & _ & _).
  destruct (Z_le_gt_dec e 0) as [He | He]; [lia |].
  exfalso. unfold finite_value, cond_Zopp in Hle.
  change 2%Q with (inject_Z 2) in Hle.
  rewrite <- Zpower_Qpower, <- inject_Z_mult in Hle by lia.
  change 1%Q with (inject_Z 1) in Hle. rewrite <- Zle_Qle in Hle.
  pose proof (Z.pow_le_mono_r 2 1 e ltac:(lia) ltac:(lia)) as Hpow.
  change (2 ^ 1) with 2 in Hpow. nia.
Qed.

Lemma mul_MAX_TRACE_ID_zero (s : bool) :
  mul (S754_zero s) float_of_MAX_TRACE_ID = S754_zero s.
Proof. destruct s; reflexivity. Qed.

(** The rate [0.5] is the float [2 ^ 52 * 2 ^ -53]; its threshold is the
    float [2 ^ 52 * 2 ^ 11], that is [2 ^ 63]. *)
Example mul_MAX_TRACE_ID_half :
  mul (S754_finite false (2 ^ 52)%positive (- 53)) float_of_MAX_TRACE_ID
  = S754_finite false (2 ^ 52)%positive 11.
Proof. vm_compute. reflexivity. Qed.

(** X1. The embedding of rates is faithful on floats: for a finite float rate
    whose product with [2 ^ 64] does not overflow, in particular for every
    rate of at most one, the threshold Python computes is a finite float
    whose value is the threshold [set_sample_rate] computes from the value of
    the rate. *)
Theorem float_rate_threshold_exact
    (self : RateSampler.t) (s : bool) (m : positive) (e : Z) :
  valid (S754_finite s m e) = true →
  Zpos (digits2_pos m) + e ≤ 960 ∨ (finite_value false m e <= 1)%Q →
  ∃ m' e',
    mul (S754_finite s m e) float_of_MAX_TRACE_ID = S754_finite s m' e'
    ∧ (finite_value s m' e'
       == RateSampler.sampling_id_threshold
            (RateSampler.set_sample_rate self (finite_value s m e)))%Q.
Proof.
  intros Hvalid Hsmall.
  assert (Hd : Zpos (digits2_pos m) + e ≤ 960).
  { destruct Hsmall as [H | H]; [exact H |].
    eapply rate_below_one_small; eassumption. }
  destruct (mul_MAX_TRACE_ID_exact s m e Hvalid Hd) as (m' & e' & Hmul & _ & Hv).
  exists m', e'. split; [exact Hmul | exact Hv].
Qed.

End Binary64Facts.

(** ** The rate sampler *)

Module RateSamplerFacts.
Import RateSampler.

Lemma MAX_TRACE_ID_pos : (0 < inject_Z MAX_TRACE_ID)%Q.
Proof. rewrite <- (Zlt_Qlt 0). reflexivity. Qed.

Lemma hash_id_range (tid : Z) : 0 ≤ hash_id tid < MAX_TRACE_ID.
Proof. unfold hash_id. apply Z.mod_pos_bound. reflexivity. Qed.

(** The keep flag [sample] leaves on the span: setting the metric does not
    touch it. *)
Lemma sampled_sample (self : t) (rnd : Z) (span : Span) :
  sampled (sample self rnd span)
  = Some (Qle_bool (inject_Z (processed_id span rnd))
                   (sampling_id_threshold self)).
Proof. unfold sample. simpl. destruct (has_set_metric span); reflexivity. Qed.

Lemma sampled_sample_true (self : t) (rnd : Z) (span : Span) :
  sampled (sample self rnd span) = Some true
  ↔ (inject_Z (processed_id span rnd) <= sampling_id_threshold self)%Q.
Proof.
  rewrite sampled_sample, <- Qle_bool_iff.
  split; [intros [= ->] | intros ->]; reflexivity.
Qed.

Lemma sampled_sample_false (self : t) (rnd : Z) (span : Span) :
  sampled (sample self rnd span) = Some false
  ↔ (sampling_id_threshold self < inject_Z (processed_id span rnd))%Q.
Proof.
  rewrite sampled_sample. split.
  - intros [= H]. apply Qnot_le_lt. intros Hle.
    apply Qle_bool_iff in Hle. congruence.
  - intros Hlt. f_equal. apply not_true_is_false. intros Hle.
    apply Qle_bool_iff in Hle. exact (Qlt_not_le _ _ Hlt Hle).
Qed.

(** The rate is recorded under [_sample_rate] when the span can be tagged,
    and a span that cannot be tagged is left with the tags it had. *)
Lemma sample_records_rate (self : t) (rnd : Z) (span : Span) :
  metrics (sample self rnd span)
  = if has_set_metric span
    then <["_sample_rate" := sample_rate self]> (metrics span)
    else metrics span.
Proof. unfold sample. simpl. destruct (has_set_metric span); reflexivity. Qed.

Example sample_half_rate :
  map (λ tid, sampled (sample (init 0.5) 0 (example_span (Some tid))))
      [0; 1; 8; 9; 10]
  = [Some true; Some true; Some true; Some false; Some false].
Proof. vm_compute. reflexivity. Qed.

Lemma processed_id_Some (span : Span) (rnd tid : Z) :
  trace_id span = Some tid → processed_id span rnd = hash_id tid.
Proof. unfold processed_id. intros ->. reflexivity. Qed.

(** A rate in [(0, 1]] goes through [__init__] as it is. *)
Lemma init_rate_unit (r : Q) : (0 < r)%Q → (r <= 1)%Q → init_rate r = r.
Proof.
  intros H0 H1. unfold init_rate.
  destruct (Qle_bool r 0) eqn:E0.
  - apply Qle_bool_iff in E0. destruct (Qlt_not_le _ _ H0 E0).
  - apply Qle_bool_iff in H1. rewrite H1. reflexivity.
Qed.

Lemma init_rate_nonpos (r : Q) : (r <= 0)%Q → init_rate r = 1%Q.
Proof. intros H. unfold init_rate. apply Qle_bool_iff in H. rewrite H. reflexivity. Qed.

Lemma init_rate_above (r : Q) : (1 < r)%Q → init_rate r = 1%Q.
Proof.
  intros H. unfold init_rate.
  destruct (Qle_bool r 0); [reflexivity |].
  destruct (Qle_bool r 1) eqn:E1; [| reflexivity].
  apply Qle_bool_iff in E1. destruct (Qlt_not_le _ _ H E1).
Qed.

(** Whatever it is given, [__init__] settles on a rate in [(0, 1]]. *)
Lemma init_rate_range (r : Q) : (0 < init_rate r)%Q ∧ (init_rate r <= 1)%Q.
Proof.
  unfold init_rate. destruct (Qle_bool r 0) eqn:E0; [split; reflexivity || discriminate |].
  destruct (Qle_bool r 1) eqn:E1; simpl; [| split; reflexivity || discriminate].
  split.
  - apply Qnot_le_lt. intros H. apply Qle_bool_iff in H. congruence.
  - apply Qle_bool_iff. exact E1.
Qed.

Lemma threshold_init (r : Q) :
  sampling_id_threshold (init r) = (init_rate r * inject_Z MAX_TRACE_ID)%Q.
Proof. reflexivity. Qed.

(** A hashed identifier is below the threshold of rate one. *)
Lemma below_full_threshold (x : Z) (r : Q) :
  0 ≤ x < MAX_TRACE_ID → (r == 1)%Q →
  (inject_Z x <= r * inject_Z MAX_TRACE_ID)%Q.
Proof.
  intros Hx Hr. rewrite Hr, Qmult_1_l, <- Zle_Qle. lia.
Qed.

(** C1. A rate sampler built with a rate [r] in [(0, 1]] keeps a span that
    carries a trace identifier exactly when
    [(identifier * 1111111111111111111) mod 2^64 <= r * 2^64], and drops it
    otherwise.  With identifier [0] the processed value is [0] and the span
    is kept for every [r > 0]; with [r = 0.5] an identifier whose processed
    value exceeds [0.5 * 2^64] is dropped. *)
Theorem rate_sample_keeps_iff_hash_below_threshold :
  (∀ (r : Q) (rnd tid : Z) (span : Span),
      (0 < r)%Q → (r <= 1)%Q → trace_id span = Some tid →
      (sampled (sample (init r) rnd span) = Some true
       ↔ (inject_Z ((tid * 1111111111111111111) mod 2 ^ 64)
          <= r * inject_Z (2 ^ 64))%Q)
      ∧ (sampled (sample (init r) rnd span) = Some false
         ↔ ¬ (inject_Z ((tid * 1111111111111111111) mod 2 ^ 64)
              <= r * inject_Z (2 ^ 64))%Q))
  ∧ (∀ (r : Q) (rnd : Z) (span : Span),
        (0 < r)%Q → trace_id span = Some 0 →
        processed_id span rnd = 0
        ∧ sampled (sample (init r) rnd span) = Some true)
  ∧ (∀ (rnd tid : Z) (span : Span),
        trace_id span = Some tid →
        (0.5 * inject_Z (2 ^ 64)
         < inject_Z ((tid * 1111111111111111111) mod 2 ^ 64))%Q →
        sampled (sample (init 0.5) rnd span) = Some false).
Proof.
  split; [| split].
  - intros r rnd tid span H0 H1 Hid.
    rewrite sampled_sample_true, sampled_sample_false, threshold_init.
    rewrite (processed_id_Some _ _ _ Hid), (init_rate_unit _ H0 H1).
    change (hash_id tid) with ((tid * 1111111111111111111) mod 2 ^ 64).
    change MAX_TRACE_ID with (2 ^ 64).
    split; [reflexivity |].
    split; [apply Qlt_not_le | apply Qnot_le_lt].
  - intros r rnd span H0 Hid.
    pose proof (processed_id_Some _ rnd _ Hid) as Hp.
    split; [exact Hp |].
    rewrite sampled_sample_true, Hp, threshold_init. simpl.
    apply Qmult_le_0_compat.
    + apply Qlt_le_weak, init_rate_range.
    + apply Qlt_le_weak, MAX_TRACE_ID_pos.
  - intros rnd tid span Hid Hlt.
    rewrite sampled_sample_false, (processed_id_Some _ _ _ Hid).
    exact Hlt.
Qed.

Lemma rate_sample_keeps_iff_hash_below_threshold_witness :
  sampled (sample (init 0.5) 7 (example_span (Some 1))) = Some true
  ↔ (inject_Z ((1 * 1111111111111111111) mod 2 ^ 64)
     <= 0.5 * inject_Z (2 ^ 64))%Q.
Proof.
  apply (proj1 rate_sample_keeps_iff_hash_below_threshold
               0.5%Q 7 1 (example_span (Some 1))).
  - reflexivity.
  - discriminate.
  - reflexivity.
Defined.

(** C2. For one sampler and one trace identifier, two calls of [sample] on
    spans that carry that identifier give the same keep/drop outcome,
    whatever else differs between the spans and whatever the random source
    would have returned: the outcome is a function of the rate and the
    identifier. *)
Theorem rate_sample_deterministic
    (self : t) (tid rnd1 rnd2 : Z) (span1 span2 : Span) :
  trace_id span1 = Some tid → trace_id span2 = Some tid →
  sampled (sample self rnd1 span1) = sampled (sample self rnd2 span2).
Proof.
  intros H1 H2. rewrite !sampled_sample.
  rewrite (processed_id_Some _ _ _ H1), (processed_id_Some _ _ _ H2).
  reflexivity.
Qed.

Lemma rate_sample_deterministic_witness :
  sampled (sample (init 0.25) 3 (example_span (Some 42)))
  = sampled (sample (init 0.25) 99
               (set_metric (example_span (Some 42)) "x" 1%Q)).
Proof.
  apply (rate_sample_deterministic (init 0.25) 42); reflexivity.
Defined.

Lemma threshold_monotone (r1 r2 : Q) (x : Z) :
  (r1 < r2)%Q →
  (inject_Z x <= r1 * inject_Z MAX_TRACE_ID)%Q →
  (inject_Z x <= r2 * inject_Z MAX_TRACE_ID)%Q.
Proof.
  intros Hlt Hle. eapply Qle_trans; [exact Hle |].
  apply Qmult_le_compat_r.
  - apply Qlt_le_weak, Hlt.
  - apply Qlt_le_weak, MAX_TRACE_ID_pos.
Qed.

(** C3. Keeping is monotone in the rate: for rates [r1 < r2] in [(0, 1]]
    and one trace identifier, a span kept by a sampler built with [r1] is
    kept by a sampler built with [r2]; the same holds for two rates set with
    [set_sample_rate], whatever their range. *)
Theorem rate_sample_monotone_in_rate :
  (∀ (r1 r2 : Q) (tid rnd1 rnd2 : Z) (span1 span2 : Span),
      (0 < r1)%Q → (r1 < r2)%Q → (r2 <= 1)%Q →
      trace_id span1 = Some tid → trace_id span2 = Some tid →
      sampled (sample (init r1) rnd1 span1) = Some true →
      sampled (sample (init r2) rnd2 span2) = Some true)
  ∧ (∀ (self1 self2 : t) (r1 r2 : Q) (tid rnd1 rnd2 : Z)
       (span1 span2 : Span),
        (r1 < r2)%Q →
        trace_id span1 = Some tid → trace_id span2 = Some tid →
        sampled (sample (set_sample_rate self1 r1) rnd1 span1) = Some true →
        sampled (sample (set_sample_rate self2 r2) rnd2 span2) = Some true).
Proof.
  split.
  - intros r1 r2 tid rnd1 rnd2 span1 span2 H0 Hlt H1 Hid1 Hid2.
    rewrite !sampled_sample_true, !threshold_init.
    rewrite (processed_id_Some _ _ _ Hid1), (processed_id_Some _ _ _ Hid2).
    rewrite (init_rate_unit r1), (init_rate_unit r2).
    + apply threshold_monotone, Hlt.
    + eapply Qlt_trans; eassumption.
    + exact H1.
    + exact H0.
    + eapply Qle_trans; [apply Qlt_le_weak, Hlt | exact H1].
  - intros self1 self2 r1 r2 tid rnd1 rnd2 span1 span2 Hlt Hid1 Hid2.
    rewrite !sampled_sample_true.
    rewrite (processed_id_Some _ _ _ Hid1), (processed_id_Some _ _ _ Hid2).
    apply threshold_monotone, Hlt.
Qed.

Lemma rate_sample_monotone_in_rate_witness :
  sampled (sample (init 0.75) 5 (example_span (Some 1))) = Some true.
Proof.
  apply (proj1 rate_sample_monotone_in_rate 0.5%Q 0.75%Q 1 0 5
               (example_span (Some 1)) (example_span (Some 1)));
    reflexivity || discriminate.
Defined.

(** C8. Building the sampler with a rate [r <= 0] does not fail and falls
    back to rate [1]; a rate [r > 1] is clamped to [1]; and a sampler with
    rate [1], however it was obtained, keeps every span, with or without an
    identifier ([rnd] is what [getrandbits(64)] returns for a span without
    one). *)
Theorem rate_init_fails_open_and_clamps :
  (∀ r : Q, (r <= 0)%Q → init r = init 1)
  ∧ (∀ r : Q, (1 < r)%Q → init r = init 1)
  ∧ sample_rate (init 1) = 1%Q
  ∧ (∀ (r : Q) (rnd : Z) (span : Span),
        (r <= 0)%Q ∨ (1 <= r)%Q → 0 ≤ rnd < 2 ^ 64 →
        sampled (sample (init r) rnd span) = Some true)
  ∧ (∀ (self : t) (r : Q) (rnd : Z) (span : Span),
        (r == 1)%Q → 0 ≤ rnd < 2 ^ 64 →
        sampled (sample (set_sample_rate self r) rnd span) = Some true).
Proof.
  assert (Hp : ∀ span rnd, 0 ≤ rnd < 2 ^ 64 →
                 0 ≤ processed_id span rnd < MAX_TRACE_ID).
  { intros span rnd Hrnd. unfold processed_id.
    destruct (trace_id span); [apply hash_id_range | exact Hrnd]. }
  split; [| split; [| split; [| split]]].
  - intros r Hr. unfold init. rewrite (init_rate_nonpos _ Hr). reflexivity.
  - intros r Hr. unfold init. rewrite (init_rate_above _ Hr). reflexivity.
  - reflexivity.
  - intros r rnd span Hr Hrnd.
    rewrite sampled_sample_true, threshold_init.
    apply below_full_threshold; [apply Hp, Hrnd |].
    destruct Hr as [Hr | Hr].
    + rewrite (init_rate_nonpos _ Hr). reflexivity.
    + destruct (Qle_lt_or_eq _ _ Hr) as [Hlt | Heq].
      * rewrite (init_rate_above _ Hlt). reflexivity.
      * rewrite init_rate_unit; [symmetry; exact Heq | | ].
        -- rewrite <- Heq. reflexivity.
        -- rewrite <- Heq. discriminate.
  - intros self r rnd span Hr Hrnd.
    rewrite sampled_sample_true. simpl.
    apply below_full_threshold; [apply Hp, Hrnd | exact Hr].
Qed.

Lemma rate_init_fails_open_and_clamps_witness :
  init (-3) = init 1
  ∧ init 2.5 = init 1
  ∧ sampled (sample (init 0) (2 ^ 64 - 1) (example_span None)) = Some true
  ∧ sampled (sample (set_sample_rate (init 0.5) 1) 0
               (example_span (Some 12345))) = Some true.
Proof.
  destruct rate_init_fails_open_and_clamps as (H1 & H2 & _ & H3 & H4).
  split; [| split; [| split]].
  - apply H1. discriminate.
  - apply H2. reflexivity.
  - apply H3; [left; discriminate | lia].
  - apply H4; [reflexivity | lia].
Defined.

(** C10. [set_sample_rate] neither clamps nor falls back: it stores the
    rate it is given and the threshold [r * 2^64], for every [r].  After an
    update to rate [0] a span with an identifier is kept exactly when its
    processed value is [0]; after an update to a negative rate no span with
    an identifier is kept. *)
Theorem set_sample_rate_stores_rate_unchecked :
  (∀ (self : t) (r : Q),
      sample_rate (set_sample_rate self r) = r
      ∧ sampling_id_threshold (set_sample_rate self r)
        = (r * inject_Z (2 ^ 64))%Q)
  ∧ (∀ (self : t) (r : Q) (rnd tid : Z) (span : Span),
        (r == 0)%Q → trace_id span = Some tid →
        sampled (sample (set_sample_rate self r) rnd span) = Some true
        ↔ (tid * 1111111111111111111) mod 2 ^ 64 = 0)
  ∧ (∀ (self : t) (r : Q) (rnd tid : Z) (span : Span),
        (r < 0)%Q → trace_id span = Some tid →
        sampled (sample (set_sample_rate self r) rnd span) = Some false).
Proof.
  split; [| split].
  - intros self r. split; reflexivity.
  - intros self r rnd tid span Hr Hid.
    rewrite sampled_sample_true, (processed_id_Some _ _ _ Hid). simpl.
    rewrite Hr, Qmult_0_l. change 0%Q with (inject_Z 0).
    rewrite <- Zle_Qle.
    pose proof (hash_id_range tid) as Hh.
    change (hash_id tid) with ((tid * 1111111111111111111) mod 2 ^ 64) in *.
    lia.
  - intros self r rnd tid span Hr Hid.
    rewrite sampled_sample_false, (processed_id_Some _ _ _ Hid). simpl.
    eapply Qlt_le_trans with (y := 0%Q).
    + rewrite <- (Qmult_0_l (inject_Z MAX_TRACE_ID)).
      apply Qmult_lt_compat_r; [apply MAX_TRACE_ID_pos | exact Hr].
    + change 0%Q with (inject_Z 0). rewrite <- Zle_Qle.
      apply hash_id_range.
Qed.

Lemma set_sample_rate_stores_rate_unchecked_witness :
  (sampled (sample (set_sample_rate (init 0.5) 0) 0 (example_span (Some 0)))
   = Some true
   ↔ (0 * 1111111111111111111) mod 2 ^ 64 = 0)
  ∧ sampled (sample (set_sample_rate (init 0.5) (-1)) 0
               (example_span (Some 0))) = Some false.
Proof.
  destruct set_sample_rate_stores_rate_unchecked as (_ & H0 & Hneg).
  split.
  - apply H0; reflexivity.
  - apply (Hneg _ _ _ 0); reflexivity.
Defined.

End RateSamplerFacts.

(** ** The distributed sampling proxy *)

Module DistributedSampledFacts.
Import DistributedSampled.

(** C9. For every wrapped span, [set_sampled(True)] writes sampling
    priority [1] and [set_sampled(False)] writes sampling priority [0]; the
    value goes to the sampling-priority channel and the local keep flag of
    the span is left as it was, so the two inputs give two different
    priorities. *)
Theorem distributed_set_sampled_writes_priority (sp : Span) :
  sampling_priority (span (set_sampled (init sp) true)) = Some 1
  ∧ sampling_priority (span (set_sampled (init sp) false)) = Some 0
  ∧ (∀ b : bool, sampled (span (set_sampled (init sp) b)) = sampled sp)
  ∧ sampling_priority (span (set_sampled (init sp) true))
    ≠ sampling_priority (span (set_sampled (init sp) false)).
Proof.
  split; [reflexivity |]. split; [reflexivity |].
  split; [intros b; reflexivity |]. simpl. discriminate.
Qed.

End DistributedSampledFacts.

(** ** The throughput sampler *)

Module ThroughputSamplerFacts.
Import ThroughputSampler.

(** *** Sequencing *)

Lemma bind_Ok {A B : Type} (m : M A) (f : A → M B) (w w' : world) (a : A) :
  m w = (Ok a, w') → (m ≫= f) w = f a w'.
Proof. intros H. unfold mbind, M_bind. rewrite H. reflexivity. Qed.

Lemma bind_inv_Ok {A B : Type} (m : M A) (f : A → M B) (w w2 : world) (b : B) :
  (m ≫= f) w = (Ok b, w2) →
  ∃ a w1, m w = (Ok a, w1) ∧ f a w1 = (Ok b, w2).
Proof.
  unfold mbind, M_bind. destruct (m w) as [[a | e] w1]; intros H.
  - exists a, w1. split; [reflexivity | exact H].
  - discriminate.
Qed.

Lemma for_invariant {A : Type} (P : world → Prop) (body : A → M unit)
    (l : list A) :
  (∀ x w w', P w → body x w = (Ok (), w') → P w') →
  ∀ w w', P w → for_ l body w = (Ok (), w') → P w'.
Proof.
  intros Hbody. induction l as [| x l IH]; intros w w' HP Hrun.
  - injection Hrun as <-. exact HP.
  - simpl in Hrun. apply bind_inv_Ok in Hrun as ([] & w1 & Hx & Hl).
    eapply IH; [eapply Hbody |]; eassumption.
Qed.

(** *** Buckets *)

Lemma key_from_time_range (t : Z) : 0 ≤ key_from_time t < 20.
Proof. unfold key_from_time. apply Z.mod_pos_bound. reflexivity. Qed.

Lemma py_index_key (t : Z) :
  py_index 20 (key_from_time t) = Some (Z.to_nat (key_from_time t)).
Proof.
  pose proof (key_from_time_range t). unfold py_index.
  rewrite bool_decide_eq_true_2; [reflexivity | lia].
Qed.

Lemma sum_buckets_insert (l : list Z) (n : nat) (v x : Z) :
  l !! n = Some v → sum_buckets (<[n := x]> l) = sum_buckets l - v + x.
Proof.
  revert n. induction l as [| y l IH]; intros [| n] H; try discriminate.
  - injection H as ->. simpl. lia.
  - simpl in *. rewrite (IH _ H). lia.
Qed.

Lemma sum_buckets_nonneg (l : list Z) :
  Forall (λ v, 0 ≤ v ≤ ULONG_MAX) l → 0 ≤ sum_buckets l.
Proof. induction 1; simpl; lia. Qed.

Lemma bucket_le_sum (l : list Z) (n : nat) (v : Z) :
  Forall (λ v, 0 ≤ v ≤ ULONG_MAX) l → l !! n = Some v → v ≤ sum_buckets l.
Proof.
  intros Hl. revert n. induction Hl as [| y l Hy Hl IH]; intros [| n] H;
    try discriminate; simpl in *.
  - injection H as ->. pose proof (sum_buckets_nonneg l Hl). lia.
  - specialize (IH _ H). lia.
Qed.

Lemma sum_buckets_zero (l : list Z) :
  Forall (λ v, v = 0) l → sum_buckets l = 0.
Proof. induction 1; simpl; lia. Qed.

(** *** The array operations *)

Lemma getitem_Ok_inv (i v : Z) (w w' : world) :
  getitem i w = (Ok v, w') →
  w' = w
  ∧ ∃ n, py_index (length (counter_buffer (self w))) i = Some n
         ∧ counter_buffer (self w) !! n = Some v.
Proof.
  unfold getitem.
  destruct (py_index _ i) as [n |]; simpl; [| discriminate].
  destruct (counter_buffer (self w) !! n) as [x |] eqn:E; [| discriminate].
  intros [= -> ->]. split; [reflexivity |]. exists n. split; [reflexivity | exact E].
Qed.

Lemma setitem_Ok_inv (i v : Z) (w w' : world) :
  setitem i v w = (Ok (), w') →
  0 ≤ v ≤ ULONG_MAX
  ∧ ∃ n, py_index (length (counter_buffer (self w))) i = Some n
         ∧ w' = {| self := set_counter_buffer
                             (<[n := v]> (counter_buffer (self w))) (self w);
                   span := span w |}.
Proof.
  unfold setitem.
  destruct (py_index _ i) as [n |]; [| discriminate].
  case_bool_decide as Hv; [| discriminate].
  intros [= <-]. split; [exact Hv |]. exists n. split; reflexivity.
Qed.

Lemma getitem_key (t : Z) (w : world) :
  well_formed (self w) →
  ∃ v, counter_buffer (self w) !! Z.to_nat (key_from_time t) = Some v
       ∧ 0 ≤ v ≤ ULONG_MAX
       ∧ getitem (key_from_time t) w = (Ok v, w).
Proof.
  intros [Hlen Hrange]. unfold getitem. rewrite Hlen.
  change (Z.to_nat BUFFER_SIZE) with 20%nat. rewrite py_index_key. simpl.
  pose proof (key_from_time_range t) as Hk.
  destruct (lookup_lt_is_Some_2 (counter_buffer (self w))
              (Z.to_nat (key_from_time t))) as [v Hv].
  { rewrite Hlen. change (Z.to_nat BUFFER_SIZE) with 20%nat. lia. }
  exists v. rewrite Hv. split; [reflexivity |].
  split; [| reflexivity].
  exact (proj1 (Forall_lookup _ _) Hrange _ _ Hv).
Qed.

Lemma setitem_key (t v : Z) (w : world) :
  length (counter_buffer (self w)) = Z.to_nat BUFFER_SIZE →
  0 ≤ v ≤ ULONG_MAX →
  setitem (key_from_time t) v w
  = (Ok (), {| self := set_counter_buffer
                         (<[Z.to_nat (key_from_time t) := v]>
                            (counter_buffer (self w))) (self w);
               span := span w |}).
Proof.
  intros Hlen Hv. unfold setitem. rewrite Hlen.
  change (Z.to_nat BUFFER_SIZE) with 20%nat. rewrite py_index_key.
  rewrite bool_decide_eq_true_2; [reflexivity | exact Hv].
Qed.

Lemma setitem_key_overflow (t v : Z) (w : world) :
  length (counter_buffer (self w)) = Z.to_nat BUFFER_SIZE →
  ¬ 0 ≤ v ≤ ULONG_MAX →
  setitem (key_from_time t) v w = (Raise OverflowError, w).
Proof.
  intros Hlen Hv. unfold setitem. rewrite Hlen.
  change (Z.to_nat BUFFER_SIZE) with 20%nat. rewrite py_index_key.
  rewrite bool_decide_eq_false_2; [reflexivity | exact Hv].
Qed.

Lemma well_formed_insert (s : t) (n : nat) (v : Z) :
  well_formed s → 0 ≤ v ≤ ULONG_MAX →
  well_formed (set_counter_buffer (<[n := v]> (counter_buffer s)) s).
Proof.
  intros [Hlen Hrange] Hv. split; simpl.
  - rewrite length_insert. exact Hlen.
  - apply Forall_insert; assumption.
Qed.

(** *** One bucket expiring *)

(** The state [expire_bucket] leaves when the bucket at [n] held [v]. *)
Lemma expire_bucket_Ok_inv (start i : Z) (w w' : world) :
  expire_bucket start i w = (Ok (), w') →
  ∃ n v,
    py_index (length (counter_buffer (self w)))
             (key_from_time (start + i + 1)) = Some n
    ∧ counter_buffer (self w) !! n = Some v
    ∧ counter (self w') = counter (self w) - v
    ∧ counter_buffer (self w') = <[n := 0]> (counter_buffer (self w))
    ∧ buffer_limit (self w') = buffer_limit (self w)
    ∧ last_track_time (self w') = last_track_time (self w)
    ∧ span w' = span w.
Proof.
  unfold expire_bucket. intros H.
  apply bind_inv_Ok in H as (c & w1 & Hc & H). injection Hc as <- <-.
  apply bind_inv_Ok in H as (v & w1 & Hv & H).
  apply getitem_Ok_inv in Hv as (-> & n & Hn & Hv).
  apply bind_inv_Ok in H as ([] & w1 & Hm & H). injection Hm as <-.
  apply setitem_Ok_inv in H as (_ & n' & Hn' & ->). simpl in Hn'.
  rewrite Hn in Hn'. injection Hn' as <-.
  exists n, v. repeat split; assumption.
Qed.

Lemma expire_bucket_total (start i : Z) (w : world) :
  well_formed (self w) →
  ∃ w', expire_bucket start i w = (Ok (), w').
Proof.
  intros Hwf. unfold expire_bucket.
  destruct (getitem_key (start + i + 1) w Hwf) as (v & Hv & Hr & Hget).
  eexists. erewrite bind_Ok by reflexivity.
  erewrite bind_Ok by exact Hget.
  erewrite bind_Ok by reflexivity.
  apply setitem_key; [apply Hwf | unfold ULONG_MAX; lia].
Qed.

Lemma expire_bucket_balanced (start i : Z) (w w' : world) :
  balanced (self w) → expire_bucket start i w = (Ok (), w') →
  balanced (self w').
Proof.
  unfold balanced. intros Hb H.
  apply expire_bucket_Ok_inv in H as (n & v & _ & Hv & Hc & Hbuf & _).
  rewrite Hc, Hbuf, (sum_buckets_insert _ _ _ _ Hv), Hb. lia.
Qed.

Lemma expire_bucket_well_formed (start i : Z) (w w' : world) :
  well_formed (self w) → expire_bucket start i w = (Ok (), w') →
  well_formed (self w').
Proof.
  intros [Hlen Hrange] H.
  apply expire_bucket_Ok_inv in H as (n & v & _ & _ & _ & Hbuf & _).
  split; rewrite Hbuf.
  - rewrite length_insert. exact Hlen.
  - apply Forall_insert; [exact Hrange | unfold ULONG_MAX; lia].
Qed.

(** *** The expiry loop *)

Lemma expire_loop_balanced (start : Z) (l : list Z) (w w' : world) :
  balanced (self w) → for_ l (expire_bucket start) w = (Ok (), w') →
  balanced (self w').
Proof.
  apply (for_invariant (λ w, balanced (self w))).
  intros i w1 w2. apply expire_bucket_balanced.
Qed.

(** On a well-formed buffer the loop runs to its end; it zeroes the
    buckets it visits and leaves zero buckets at zero. *)
Lemma expire_loop (start : Z) (l : list Z) (w : world) :
  well_formed (self w) → balanced (self w) →
  ∃ w', for_ l (expire_bucket start) w = (Ok (), w')
        ∧ well_formed (self w') ∧ balanced (self w')
        ∧ buffer_limit (self w') = buffer_limit (self w)
        ∧ last_track_time (self w') = last_track_time (self w)
        ∧ span w' = span w
        ∧ counter (self w') ≤ counter (self w)
        ∧ ∀ n : nat,
            counter_buffer (self w) !! n = Some 0
            ∨ (∃ i, i ∈ l ∧ Z.to_nat (key_from_time (start + i + 1)) = n) →
            counter_buffer (self w') !! n = Some 0.
Proof.
  revert w. induction l as [| i l IH]; intros w Hwf Hb.
  - exists w. split; [reflexivity |]. split; [exact Hwf |].
    split; [exact Hb |]. do 3 (split; [reflexivity |]). split; [lia |].
    intros n [Hn | (i & Hi & _)]; [exact Hn | inversion Hi].
  - destruct (expire_bucket_total start i w Hwf) as [w1 H1].
    pose proof (expire_bucket_well_formed _ _ _ _ Hwf H1) as Hwf1.
    pose proof (expire_bucket_balanced _ _ _ _ Hb H1) as Hb1.
    destruct (IH w1 Hwf1 Hb1)
      as (w' & Hrun & Hwf' & Hb' & Hlim & Hlast & Hsp & Hc & Hz).
    pose proof H1 as Hinv.
    apply expire_bucket_Ok_inv in Hinv
      as (n1 & v & Hn1 & Hv & Hc1 & Hbuf1 & Hlim1 & Hlast1 & Hsp1).
    destruct Hwf as [Hlen Hrange].
    rewrite Hlen in Hn1. change (Z.to_nat BUFFER_SIZE) with 20%nat in Hn1.
    rewrite py_index_key in Hn1. injection Hn1 as Hn1.
    pose proof (proj1 (Forall_lookup _ _) Hrange _ _ Hv) as Hv0. simpl in Hv0.
    exists w'. simpl. erewrite bind_Ok by exact H1.
    split; [exact Hrun |]. split; [exact Hwf' |]. split; [exact Hb' |].
    split; [congruence |]. split; [congruence |]. split; [congruence |].
    split; [lia |].
    intros n Hn. apply Hz. rewrite Hbuf1.
    assert (Hcase : counter_buffer (self w) !! n = Some 0 ∨ n = n1
                    ∨ ∃ i0, i0 ∈ l
                            ∧ Z.to_nat (key_from_time (start + i0 + 1)) = n).
    { destruct Hn as [Hn | (i0 & Hi0 & Hk)]; [left; exact Hn |].
      apply elem_of_cons in Hi0 as [-> | Hi0].
      - right; left. congruence.
      - right; right. exists i0. split; assumption. }
    destruct (decide (n = n1)) as [-> | Hne].
    + left. apply list_lookup_insert_eq. apply (lookup_lt_Some _ _ _ Hv).
    + destruct Hcase as [Hn0 | [-> | Hl]]; [| contradiction |].
      * left. rewrite list_lookup_insert_ne by congruence. exact Hn0.
      * right. exact Hl.
Qed.

(** *** The window advance *)

Lemma advance_window_noop (now : Z) (w : world) :
  now ≤ last_track_time (self w) → advance_window now w = (Ok (), w).
Proof.
  intros H. unfold advance_window.
  erewrite bind_Ok by reflexivity.
  rewrite bool_decide_eq_false_2 by lia. reflexivity.
Qed.

Lemma advance_window_balanced (now : Z) (w w' : world) :
  balanced (self w) → advance_window now w = (Ok (), w') →
  balanced (self w').
Proof.
  intros Hb H. unfold advance_window in H.
  apply bind_inv_Ok in H as (last & w1 & Hl & H). injection Hl as <- <-.
  case_bool_decide.
  - apply bind_inv_Ok in H as ([] & w1 & Hm & H). injection Hm as <-.
    eapply expire_loop_balanced; [| exact H]. exact Hb.
  - injection H as <-. exact Hb.
Qed.

(** Every bucket is visited when the loop runs over a full window. *)
Lemma full_window_covers (start : Z) (n : nat) :
  (n < 20)%nat →
  ∃ i, i ∈ seqZ 0 20 ∧ Z.to_nat (key_from_time (start + i + 1)) = n.
Proof.
  intros Hn. exists ((Z.of_nat n - start - 1) mod 20). split.
  - apply elem_of_seqZ. pose proof (Z.mod_pos_bound (Z.of_nat n - start - 1) 20).
    lia.
  - unfold key_from_time. change BUFFER_SIZE with 20.
    enough ((start + (Z.of_nat n - start - 1) mod 20 + 1) mod 20 = Z.of_nat n)
      as -> by lia.
    Z.div_mod_to_equations. lia.
Qed.

Lemma advance_window_good (now : Z) (w : world) :
  well_formed (self w) → balanced (self w) →
  ∃ w', advance_window now w = (Ok (), w')
        ∧ well_formed (self w') ∧ balanced (self w')
        ∧ buffer_limit (self w') = buffer_limit (self w)
        ∧ span w' = span w
        ∧ last_track_time (self w') = Z.max now (last_track_time (self w))
        ∧ 0 ≤ counter (self w') ≤ counter (self w)
        ∧ (now - last_track_time (self w) > 20 →
           Forall (λ v, v = 0) (counter_buffer (self w'))
           ∧ counter (self w') = 0).
Proof.
  intros Hwf Hb.
  assert (Hnonneg : ∀ s, well_formed s → balanced s → 0 ≤ counter s).
  { intros s [_ Hr] Hs. rewrite Hs. apply sum_buckets_nonneg, Hr. }
  destruct (decide (now > last_track_time (self w))) as [Hgt | Hle].
  - set (w0 := {| self := set_last_track_time now (self w); span := span w |}).
    destruct (expire_loop (last_track_time (self w))
                (seqZ 0 (period (last_track_time (self w)) now)) w0)
      as (w' & Hrun & Hwf' & Hb' & Hlim & Hlast & Hsp & Hc & Hz);
      [exact Hwf | exact Hb |].
    exists w'. split.
    { unfold advance_window. erewrite bind_Ok by reflexivity.
      rewrite bool_decide_eq_true_2 by exact Hgt.
      erewrite bind_Ok by reflexivity. exact Hrun. }
    split; [exact Hwf' |]. split; [exact Hb' |]. split; [exact Hlim |].
    split; [exact Hsp |]. split; [rewrite Hlast; simpl; lia |].
    split; [split; [apply Hnonneg; assumption | exact Hc] |].
    intros Hgap.
    assert (Hzero : Forall (λ v, v = 0) (counter_buffer (self w'))).
    { apply Forall_lookup. intros n v Hv.
      assert (Hn : (n < 20)%nat).
      { apply lookup_lt_Some in Hv. destruct Hwf' as [Hlen _].
        rewrite Hlen in Hv. exact Hv. }
      destruct (full_window_covers (last_track_time (self w)) n Hn)
        as (i & Hi & Hk).
      rewrite (Hz n) in Hv; [congruence |].
      right. exists i. split; [| exact Hk].
      unfold period. change BUFFER_SIZE with 20.
      rewrite Z.min_l by lia. exact Hi. }
    split; [exact Hzero |]. rewrite Hb'. apply sum_buckets_zero, Hzero.
  - exists w. split; [apply advance_window_noop; lia |].
    split; [exact Hwf |]. split; [exact Hb |]. do 2 (split; [reflexivity |]).
    split; [lia |]. split; [split; [apply Hnonneg; assumption | lia] |].
    intros Hgap. lia.
Qed.

(** *** The decision *)

(** The flag [sample] writes on the span, whether or not the call returns. *)
Lemma decide_span_flag (now : Z) (w w' : world) (r : result unit) :
  decide_span now w = (r, w') →
  sampled (span w')
  = Some (bool_decide (counter (self w) < buffer_limit (self w))).
Proof.
  unfold decide_span, mbind, M_bind, gets, modify_span, modify, getitem,
    setitem, modify. simpl.
  case_bool_decide; simpl.
  - destruct (py_index _ _) as [n |]; simpl.
    + destruct (counter_buffer (self w) !! n); simpl.
      * destruct (py_index _ _); [case_bool_decide |];
          intros [= <- <-]; reflexivity.
      * intros [= <- <-]. reflexivity.
    + intros [= <- <-]. reflexivity.
  - intros [= <- <-]. reflexivity.
Qed.

Lemma decide_span_drop (now : Z) (w : world) :
  ¬ counter (self w) < buffer_limit (self w) →
  decide_span now w
  = (Ok (), {| self := self w; span := set_sampled (span w) false |}).
Proof.
  intros H. unfold decide_span.
  do 2 erewrite bind_Ok by reflexivity.
  rewrite bool_decide_eq_false_2 by exact H.
  erewrite bind_Ok by reflexivity. reflexivity.
Qed.

Lemma decide_span_balanced (now : Z) (w w' : world) :
  balanced (self w) → decide_span now w = (Ok (), w') →
  balanced (self w').
Proof.
  intros Hb H. unfold decide_span in H.
  apply bind_inv_Ok in H as (c & w1 & Hc & H). injection Hc as <- <-.
  apply bind_inv_Ok in H as (l & w1 & Hl & H). injection Hl as <- <-.
  apply bind_inv_Ok in H as ([] & w1 & Hm & H). injection Hm as <-.
  case_bool_decide.
  - apply bind_inv_Ok in H as (c & w1 & Hc & H). injection Hc as <- <-.
    apply bind_inv_Ok in H as ([] & w1 & Hm & H). injection Hm as <-.
    apply bind_inv_Ok in H as (v & w1 & Hv & H).
    apply getitem_Ok_inv in Hv as (-> & n & Hn & Hv). simpl in Hn, Hv.
    apply setitem_Ok_inv in H as (_ & n' & Hn' & ->). simpl in Hn'.
    rewrite Hn in Hn'. injection Hn' as <-.
    unfold balanced in *. simpl.
    rewrite (sum_buckets_insert _ _ _ _ Hv), Hb. lia.
  - injection H as <-. exact Hb.
Qed.

Lemma decide_span_keep (now : Z) (w : world) :
  well_formed (self w) → balanced (self w) →
  counter (self w) < buffer_limit (self w) →
  counter (self w) < ULONG_MAX →
  ∃ w', decide_span now w = (Ok (), w')
        ∧ well_formed (self w') ∧ balanced (self w')
        ∧ counter (self w') = counter (self w) + 1
        ∧ buffer_limit (self w') = buffer_limit (self w)
        ∧ last_track_time (self w') = last_track_time (self w)
        ∧ span w' = set_sampled (span w) true.
Proof.
  intros Hwf Hb Hlt Hmax.
  set (w1 := {| self := set_counter (counter (self w) + 1) (self w);
                span := set_sampled (span w) true |}).
  assert (Hwf1 : well_formed (self w1)) by exact Hwf.
  destruct (getitem_key now w1 Hwf1) as (v & Hv & Hr & Hget).
  assert (Hle : v ≤ counter (self w)).
  { rewrite Hb. eapply bucket_le_sum; [apply Hwf | exact Hv]. }
  assert (Hv1 : 0 ≤ v + 1 ≤ ULONG_MAX) by lia.
  eexists. split.
  { unfold decide_span. do 2 erewrite bind_Ok by reflexivity.
    rewrite bool_decide_eq_true_2 by exact Hlt.
    do 3 erewrite bind_Ok by reflexivity.
    erewrite bind_Ok by exact Hget.
    apply setitem_key; [apply Hwf1 | exact Hv1]. }
  simpl. split; [apply (well_formed_insert (self w1)); assumption |].
  split; [| repeat split].
  unfold balanced. simpl. simpl in Hv.
  rewrite (sum_buckets_insert _ _ _ _ Hv), Hb. lia.
Qed.

(** *** One call of [sample] *)

Lemma sample_after_advance (now : Z) (w w1 : world) :
  advance_window now w = (Ok (), w1) → sample now w = decide_span now w1.
Proof.
  intros H. exact (bind_Ok (advance_window now) (λ _, decide_span now) _ _ _ H).
Qed.

Lemma sample_balanced (now : Z) (w w' : world) :
  balanced (self w) → sample now w = (Ok (), w') → balanced (self w').
Proof.
  intros Hb H. unfold sample in H.
  apply bind_inv_Ok in H as ([] & w1 & Ha & Hd).
  eapply decide_span_balanced; [| exact Hd].
  eapply advance_window_balanced; eassumption.
Qed.

Lemma decide_span_Ok_inv (now : Z) (w w' : world) :
  well_formed (self w) → decide_span now w = (Ok (), w') →
  well_formed (self w') ∧ buffer_limit (self w') = buffer_limit (self w).
Proof.
  intros Hwf H. unfold decide_span in H.
  apply bind_inv_Ok in H as (c & w1 & Hc & H). injection Hc as <- <-.
  apply bind_inv_Ok in H as (l & w1 & Hl & H). injection Hl as <- <-.
  apply bind_inv_Ok in H as ([] & w1 & Hm & H). injection Hm as <-.
  case_bool_decide.
  - apply bind_inv_Ok in H as (c & w1 & Hc & H). injection Hc as <- <-.
    apply bind_inv_Ok in H as ([] & w1 & Hm & H). injection Hm as <-.
    apply bind_inv_Ok in H as (v & w1 & Hv & H).
    apply getitem_Ok_inv in Hv as (-> & _).
    apply setitem_Ok_inv in H as (Hv & n & _ & ->). simpl.
    split; [| reflexivity].
    apply (well_formed_insert
             (set_counter (counter (self w) + 1) (self w))); assumption.
  - injection H as <-. split; [exact Hwf | reflexivity].
Qed.

Lemma sample_good (now : Z) (w w' : world) :
  well_formed (self w) → balanced (self w) →
  sample now w = (Ok (), w') →
  well_formed (self w') ∧ balanced (self w')
  ∧ buffer_limit (self w') = buffer_limit (self w).
Proof.
  intros Hwf Hb H.
  destruct (advance_window_good now w Hwf Hb)
    as (w1 & Ha & Hwf1 & Hb1 & Hlim1 & _).
  pose proof (sample_balanced _ _ _ Hb H) as Hb'.
  rewrite (sample_after_advance _ _ _ Ha) in H.
  destruct (decide_span_Ok_inv _ _ _ Hwf1 H) as [Hwf' Hlim'].
  split; [exact Hwf' |]. split; [exact Hb' | congruence].
Qed.

Lemma init_good (tps : Z) : well_formed (init tps) ∧ balanced (init tps).
Proof.
  split; [split |].
  - reflexivity.
  - apply Forall_replicate. unfold ULONG_MAX. lia.
  - reflexivity.
Qed.

Lemma reachable_good (tps : Z) (s : t) :
  reachable tps s →
  well_formed s ∧ balanced s ∧ buffer_limit s = tps * 2.
Proof.
  induction 1 as [| s now sp w Hs (Hwf & Hb & Hlim) Hstep].
  - destruct (init_good tps) as [Hwf Hb].
    split; [exact Hwf |]. split; [exact Hb | reflexivity].
  - destruct (sample_good now {| self := s; span := sp |} w Hwf Hb Hstep)
      as (Hwf' & Hb' & Hlim').
    split; [exact Hwf' |]. split; [exact Hb' |].
    rewrite Hlim'. exact Hlim.
Qed.

(** *** Runs *)

Lemma count_sampled_cons_eq (b : bool) (sp : Span) (sps : list Span) :
  sampled sp = Some b →
  count_sampled b (sp :: sps) = S (count_sampled b sps).
Proof.
  intros H. unfold count_sampled. rewrite filter_cons_True by exact H.
  reflexivity.
Qed.

Lemma count_sampled_cons_ne (b : bool) (sp : Span) (sps : list Span) :
  sampled sp ≠ Some b →
  count_sampled b (sp :: sps) = count_sampled b sps.
Proof.
  intros H. unfold count_sampled. rewrite filter_cons_False by exact H.
  reflexivity.
Qed.

Lemma run_cons_Ok (s : t) (now : Z) (sp : Span) (units : list (Z * Span))
    (w : world) :
  sample_span s now sp = (Ok (), w) →
  run s ((now, sp) :: units)
  = (let '(sps, r, s') := run (self w) units in (span w :: sps, r, s')).
Proof. intros H. simpl. rewrite H. reflexivity. Qed.

(** The first unit of a tick moves the window; the run goes on as from the
    state the window advance leaves. *)
Lemma run_settle (now : Z) (s : t) (sp : Span) :
  well_formed s → balanced s →
  ∃ s1, well_formed s1 ∧ balanced s1
        ∧ buffer_limit s1 = buffer_limit s
        ∧ now ≤ last_track_time s1
        ∧ 0 ≤ counter s1 ≤ counter s
        ∧ (now - last_track_time s > 20 → counter s1 = 0)
        ∧ ∀ units, run s ((now, sp) :: units) = run s1 ((now, sp) :: units).
Proof.
  intros Hwf Hb.
  destruct (advance_window_good now {| self := s; span := sp |} Hwf Hb)
    as ([s1 sp1] & Ha & Hwf1 & Hb1 & Hlim & Hsp & Hlast & Hc & Hgap).
  simpl in *. subst sp1. exists s1.
  split; [exact Hwf1 |]. split; [exact Hb1 |]. split; [exact Hlim |].
  split; [lia |]. split; [exact Hc |]. split; [intros H; apply Hgap, H |].
  intros units. simpl. unfold sample_span.
  rewrite (sample_after_advance _ _ _ Ha).
  rewrite (sample_after_advance now {| self := s1; span := sp |}
             {| self := s1; span := sp |});
    [reflexivity | apply advance_window_noop; simpl; lia].
Qed.

(** Units of one tick, decided from a state whose window has reached that
    tick: the first [buffer_limit - counter] of them are kept. *)
Lemma run_same_tick_settled (now : Z) (units : list (Z * Span)) :
  Forall (λ u, u.1 = now) units →
  ∀ s, well_formed s → balanced s → now ≤ last_track_time s →
       Z.min (counter s + Z.of_nat (length units)) (buffer_limit s)
       ≤ ULONG_MAX →
  ∃ sps s',
    run s units = (sps, Ok (), s')
    ∧ length sps = length units
    ∧ (∀ (i : nat) sp,
          sps !! i = Some sp →
          sampled sp
          = Some (bool_decide (counter s + Z.of_nat i < buffer_limit s)))
    ∧ Z.of_nat (count_sampled true sps)
      = Z.max 0 (Z.min (Z.of_nat (length units))
                       (buffer_limit s - counter s))
    ∧ Z.of_nat (count_sampled false sps)
      = Z.of_nat (length units)
        - Z.max 0 (Z.min (Z.of_nat (length units))
                         (buffer_limit s - counter s)).
Proof.
  induction 1 as [| [now' sp] units Hnow Hunits IH];
    intros s Hwf Hb Hlast Hmax.
  - exists [], s. simpl. split; [reflexivity |]. split; [reflexivity |].
    split; [intros i sp Hi; discriminate |].
    unfold count_sampled. simpl. lia.
  - simpl in Hnow. subst now'. simpl length in *.
    pose proof (advance_window_noop now {| self := s; span := sp |} Hlast)
      as Ha.
    assert (Hstep : ∃ w, sample_span s now sp = (Ok (), w)
                         ∧ well_formed (self w) ∧ balanced (self w)
                         ∧ buffer_limit (self w) = buffer_limit s
                         ∧ last_track_time (self w) = last_track_time s
                         ∧ sampled (span w)
                           = Some (bool_decide (counter s < buffer_limit s))
                         ∧ counter (self w)
                           = counter s
                             + (if bool_decide (counter s < buffer_limit s)
                                then 1 else 0)).
    { unfold sample_span. rewrite (sample_after_advance _ _ _ Ha).
      case_bool_decide as Hlt.
      - destruct (decide_span_keep now {| self := s; span := sp |})
          as (w & Hd & Hwf' & Hb' & Hc' & Hlim' & Hlast' & Hsp');
          [exact Hwf | exact Hb | exact Hlt | simpl; lia |].
        exists w. rewrite Hsp'. simpl in *.
        split; [exact Hd |]. split; [exact Hwf' |]. split; [exact Hb' |].
        split; [exact Hlim' |]. split; [exact Hlast' |].
        split; [reflexivity | exact Hc'].
      - rewrite decide_span_drop by exact Hlt. eexists.
        split; [reflexivity |]. simpl.
        split; [exact Hwf |]. split; [exact Hb |].
        do 3 (split; [reflexivity |]). lia. }
    destruct Hstep as (w & Hw & Hwf' & Hb' & Hlim' & Hlast' & Hflag & Hc').
    destruct (IH (self w) Hwf' Hb') as (sps & s' & Hrun & Hlen & Hat & Hk & Hd).
    { lia. }
    { rewrite Hlim', Hc'. case_bool_decide; lia. }
    exists (span w :: sps), s'.
    rewrite (run_cons_Ok _ _ _ _ _ Hw), Hrun.
    split; [reflexivity |]. split; [simpl; congruence |].
    split.
    { intros [| i] sp' Hi; simpl in Hi.
      - injection Hi as <-. rewrite Hflag. f_equal.
        apply bool_decide_ext. lia.
      - rewrite (Hat _ _ Hi), Hlim', Hc'. f_equal.
        apply bool_decide_ext. case_bool_decide; lia. }
    rewrite Hlim', Hc' in Hk, Hd.
    case_bool_decide as Hlt.
    + rewrite count_sampled_cons_eq by exact Hflag.
      rewrite count_sampled_cons_ne by (rewrite Hflag; discriminate).
      lia.
    + rewrite count_sampled_cons_ne by (rewrite Hflag; discriminate).
      rewrite count_sampled_cons_eq by exact Hflag.
      lia.
Qed.

Lemma decide_span_last (now : Z) (w w' : world) (r : result unit) :
  decide_span now w = (r, w') →
  last_track_time (self w') = last_track_time (self w).
Proof.
  unfold decide_span, mbind, M_bind, gets, modify_span, modify, getitem,
    setitem, modify. simpl.
  case_bool_decide; simpl.
  - destruct (py_index _ _) as [n |]; simpl.
    + destruct (counter_buffer (self w) !! n); simpl.
      * destruct (py_index _ _); [case_bool_decide |];
          intros [= <- <-]; reflexivity.
      * intros [= <- <-]. reflexivity.
    + intros [= <- <-]. reflexivity.
  - intros [= <- <-]. reflexivity.
Qed.

Lemma expire_buckets_empty (start end_ : Z) (w : world) :
  end_ ≤ start → expire_buckets start end_ w = (Ok (), w).
Proof.
  intros H. unfold expire_buckets, period.
  rewrite seqZ_nil; [reflexivity |]. change BUFFER_SIZE with 20. lia.
Qed.

Lemma period_le (start end_ : Z) :
  (length (seqZ 0 (period start end_)) ≤ 20)%nat.
Proof.
  rewrite length_seqZ. unfold period. change BUFFER_SIZE with 20. lia.
Qed.

(** While the limit fits a bucket, a call of [sample] on a state the sampler
    can reach returns: no index is out of range and no bucket overflows. *)
Lemma sample_returns (tps now : Z) (s : t) (sp : Span) :
  tps * 2 ≤ ULONG_MAX → reachable tps s →
  ∃ w, sample_span s now sp = (Ok (), w) ∧ balanced (self w).
Proof.
  intros Hmax Hs. destruct (reachable_good _ _ Hs) as (Hwf & Hb & Hlim).
  destruct (advance_window_good now {| self := s; span := sp |} Hwf Hb)
    as (w1 & Ha & Hwf1 & Hb1 & Hlim1 & _).
  unfold sample_span. rewrite (sample_after_advance _ _ _ Ha).
  destruct (decide (counter (self w1) < buffer_limit (self w1))) as [Hlt | Hge].
  - destruct (decide_span_keep now w1 Hwf1 Hb1 Hlt)
      as (w & Hd & _ & Hb' & _); [simpl in *; lia |].
    exists w. split; assumption.
  - rewrite (decide_span_drop _ _ Hge). eexists. split; [reflexivity |].
    exact Hb1.
Qed.

(** Where the bound matters: with the bucket of the tick at [ULONG_MAX]
    and room under the limit, the increment of the bucket raises after the
    running total has been incremented. *)
Remark decide_span_overflow (now : Z) (w : world) :
  well_formed (self w) →
  counter (self w) < buffer_limit (self w) →
  counter_buffer (self w) !! Z.to_nat (key_from_time now) = Some ULONG_MAX →
  decide_span now w
  = (Raise OverflowError,
     {| self := set_counter (counter (self w) + 1) (self w);
        span := set_sampled (span w) true |}).
Proof.
  intros Hwf Hlt Hfull.
  set (w1 := {| self := set_counter (counter (self w) + 1) (self w);
                span := set_sampled (span w) true |}).
  assert (Hwf1 : well_formed (self w1)) by exact Hwf.
  destruct (getitem_key now w1 Hwf1) as (v & Hv & _ & Hget).
  simpl in Hv. rewrite Hfull in Hv. injection Hv as <-.
  unfold decide_span. do 2 erewrite bind_Ok by reflexivity.
  rewrite bool_decide_eq_true_2 by exact Hlt.
  do 3 erewrite bind_Ok by reflexivity.
  erewrite bind_Ok by exact Hget.
  apply setitem_key_overflow; [apply Hwf1 | lia].
Qed.

(** With [tps = 1] the limit is two spans per window: two spans of tick 5
    are kept and a third is dropped; at tick 24 the bucket of tick 5 is
    still in the window, at tick 25 it has expired. *)
Example gradual_expiry :
  let '(sps, r, s) :=
    run (init 1) (map (λ now, (now, example_span None)) [5; 5; 5; 24; 25]) in
  (map sampled sps, r, counter s, last_track_time s)
  = ([Some true; Some true; Some false; Some false; Some true], Ok (), 1, 25).
Proof. vm_compute. reflexivity. Qed.

(** *** The claims on the throughput sampler *)

(** C4. A sampler built for [tps] traces per second has
    [buffer_limit = tps * 2].  From a state it can reach in which the
    running total is [0], deciding [N > buffer_limit] units of one tick, one
    after the other, returns for every unit, keeps exactly [buffer_limit] of
    them and drops the other [N - buffer_limit].  [tps] is a count, and the
    limit fits a bucket of the array. *)
Theorem throughput_cap_same_tick
    (tps now : Z) (s : t) (units : list (Z * Span)) :
  0 ≤ tps → tps * 2 ≤ ULONG_MAX →
  reachable tps s → counter s = 0 →
  Forall (λ u, u.1 = now) units →
  tps * 2 < Z.of_nat (length units) →
  buffer_limit s = tps * 2
  ∧ ∃ sps s',
      run s units = (sps, Ok (), s')
      ∧ length sps = length units
      ∧ Z.of_nat (count_sampled true sps) = tps * 2
      ∧ Z.of_nat (count_sampled false sps)
        = Z.of_nat (length units) - tps * 2.
Proof.
  intros Htps Hmax Hs Hc Hunits HN.
  destruct (reachable_good _ _ Hs) as (Hwf & Hb & Hlim).
  split; [exact Hlim |].
  destruct units as [| [now' sp] units]; [simpl in HN; lia |].
  pose proof (Forall_inv Hunits) as Hnow. simpl in Hnow. subst now'.
  destruct (run_settle now s sp Hwf Hb)
    as (s1 & Hwf1 & Hb1 & Hlim1 & Hlast1 & Hc1 & _ & Hrun).
  destruct (run_same_tick_settled now _ Hunits s1 Hwf1 Hb1 Hlast1)
    as (sps & s' & Hr & Hlen & _ & Hk & Hd); [lia |].
  exists sps, s'. rewrite Hrun.
  split; [exact Hr |]. split; [exact Hlen |]. lia.
Qed.

Lemma throughput_cap_same_tick_witness :
  ∃ sps s',
    run (init 1) [(7, example_span None); (7, example_span (Some 3));
                  (7, example_span None)] = (sps, Ok (), s')
    ∧ length sps = 3%nat
    ∧ Z.of_nat (count_sampled true sps) = 1 * 2
    ∧ Z.of_nat (count_sampled false sps) = 3 - 1 * 2.
Proof.
  apply (throughput_cap_same_tick 1 7 (init 1)
           [(7, example_span None); (7, example_span (Some 3));
            (7, example_span None)]).
  - lia.
  - unfold ULONG_MAX. lia.
  - apply reachable_init.
  - reflexivity.
  - repeat constructor.
  - simpl. lia.
Defined.

(** C5. In every state the sampler reaches from its initial state through
    calls of [sample], the running total is the sum of the buckets.  Every
    part of a call keeps it so: expiring one bucket subtracts what the
    bucket held from the running total and zeroes the bucket, and the
    expiry loop, the decision with its increment and [sample] as a whole
    preserve the equality.  As long as the limit fits a bucket of the array,
    every call on a reachable state returns, in a state where the equality
    holds. *)
Theorem running_total_is_sum_of_buckets :
  (∀ (tps : Z) (s : t),
      reachable tps s → counter s = sum_buckets (counter_buffer s))
  ∧ (∀ (start i : Z) (w w' : world),
        balanced (self w) → expire_bucket start i w = (Ok (), w') →
        (∃ (n : nat) (v : Z),
            counter_buffer (self w) !! n = Some v
            ∧ counter (self w') = counter (self w) - v
            ∧ counter_buffer (self w')
              = <[n := 0]> (counter_buffer (self w)))
        ∧ balanced (self w'))
  ∧ (∀ (start end_ : Z) (w w' : world),
        balanced (self w) → expire_buckets start end_ w = (Ok (), w') →
        balanced (self w'))
  ∧ (∀ (now : Z) (w w' : world),
        balanced (self w) → decide_span now w = (Ok (), w') →
        balanced (self w'))
  ∧ (∀ (now : Z) (w w' : world),
        balanced (self w) → sample now w = (Ok (), w') →
        balanced (self w'))
  ∧ (∀ (tps now : Z) (s : t) (sp : Span),
        tps * 2 ≤ ULONG_MAX → reachable tps s →
        ∃ w, sample_span s now sp = (Ok (), w) ∧ balanced (self w)).
Proof.
  split; [| split; [| split; [| split; [| split]]]].
  - intros tps s Hs. apply (reachable_good _ _ Hs).
  - intros start i w w' Hb H. split.
    + apply expire_bucket_Ok_inv in H as (n & v & _ & Hv & Hc & Hbuf & _).
      exists n, v. repeat split; assumption.
    + eapply expire_bucket_balanced; eassumption.
  - intros start end_ w w' Hb H. eapply expire_loop_balanced; eassumption.
  - intros now w w'. apply decide_span_balanced.
  - intros now w w'. apply sample_balanced.
  - intros tps now s sp. apply sample_returns.
Qed.

Lemma running_total_is_sum_of_buckets_witness :
  counter (self (sample_span (init 1) 7 (example_span None)).2)
  = sum_buckets
      (counter_buffer (self (sample_span (init 1) 7 (example_span None)).2)).
Proof.
  apply (proj1 running_total_is_sum_of_buckets 1).
  apply (reachable_sample 1 (init 1) 7 (example_span None)).
  - apply reachable_init.
  - vm_compute. reflexivity.
Defined.

(** C6. When [sample] is called more than [BUFFER_SIZE = 20] ticks after
    the last tracked tick, the expiry loop runs at most 20 times and the
    window advance leaves every bucket at zero and the running total at
    [0]; units of the new tick, up to [buffer_limit] of them, are then all
    kept. *)
Theorem throughput_full_window_expiry
    (tps now : Z) (s : t) (sp : Span) :
  reachable tps s → now - last_track_time s > 20 →
  (length (seqZ 0 (period (last_track_time s) now)) ≤ 20)%nat
  ∧ (∃ w, advance_window now {| self := s; span := sp |} = (Ok (), w)
          ∧ Forall (λ v, v = 0) (counter_buffer (self w))
          ∧ counter (self w) = 0
          ∧ last_track_time (self w) = now)
  ∧ (∀ units : list (Z * Span),
        Forall (λ u, u.1 = now) units →
        Z.of_nat (length units) ≤ buffer_limit s →
        Z.of_nat (length units) ≤ ULONG_MAX →
        ∃ sps s',
          run s units = (sps, Ok (), s')
          ∧ length sps = length units
          ∧ Forall (λ sp', sampled sp' = Some true) sps).
Proof.
  intros Hs Hgap.
  destruct (reachable_good _ _ Hs) as (Hwf & Hb & Hlim).
  split; [apply period_le |]. split.
  - destruct (advance_window_good now {| self := s; span := sp |} Hwf Hb)
      as (w & Ha & _ & _ & _ & _ & Hlast & _ & Hz).
    exists w. split; [exact Ha |]. simpl in *.
    split; [apply Hz, Hgap |]. split; [apply Hz, Hgap | lia].
  - intros units Hunits HN Hmax.
    destruct units as [| [now' sp0] units].
    { exists [], s. repeat split. constructor. }
    pose proof (Forall_inv Hunits) as Hnow. simpl in Hnow. subst now'.
    destruct (run_settle now s sp0 Hwf Hb)
      as (s1 & Hwf1 & Hb1 & Hlim1 & Hlast1 & Hc1 & Hzero & Hrun).
    specialize (Hzero Hgap).
    destruct (run_same_tick_settled now _ Hunits s1 Hwf1 Hb1 Hlast1)
      as (sps & s' & Hr & Hlen & Hat & _); [lia |].
    exists sps, s'. rewrite Hrun.
    split; [exact Hr |]. split; [exact Hlen |].
    apply Forall_lookup. intros i sp' Hi.
    rewrite (Hat _ _ Hi). f_equal. apply bool_decide_eq_true_2.
    apply lookup_lt_Some in Hi. lia.
Qed.

Lemma throughput_full_window_expiry_witness :
  ∃ sps s',
    run (init 1) [(21, example_span None); (21, example_span None)]
    = (sps, Ok (), s')
    ∧ length sps = 2%nat
    ∧ Forall (λ sp', sampled sp' = Some true) sps.
Proof.
  apply (throughput_full_window_expiry 1 21 (init 1) (example_span None)).
  - apply reachable_init.
  - reflexivity.
  - repeat constructor.
  - vm_compute. discriminate.
  - vm_compute. discriminate.
Defined.

(** C7. When [sample] is called with a tick below the last tracked tick,
    the window advance changes nothing: no bucket is expired, nothing is
    subtracted, and the last tracked tick, the buckets and the running
    total are as before.  The decision is the comparison of that running
    total with [buffer_limit], and the last tracked tick stays where it was.
    An expiry over a span of ticks that is not positive would visit no
    bucket. *)
Theorem throughput_clock_regression (now : Z) (w : world) :
  now < last_track_time (self w) →
  advance_window now w = (Ok (), w)
  ∧ sample now w = decide_span now w
  ∧ (∀ (r : result unit) (w' : world),
        sample now w = (r, w') →
        sampled (span w')
        = Some (bool_decide (counter (self w) < buffer_limit (self w)))
        ∧ last_track_time (self w') = last_track_time (self w))
  ∧ (∀ (start end_ : Z) (w0 : world),
        end_ ≤ start → expire_buckets start end_ w0 = (Ok (), w0)).
Proof.
  intros Hlt.
  assert (Ha : advance_window now w = (Ok (), w))
    by (apply advance_window_noop; lia).
  split; [exact Ha |]. split; [apply sample_after_advance, Ha |].
  split; [| apply expire_buckets_empty].
  intros r w' H. rewrite (sample_after_advance _ _ _ Ha) in H.
  split; [eapply decide_span_flag | eapply decide_span_last]; exact H.
Qed.

Lemma throughput_clock_regression_witness :
  advance_window 50 {| self := set_last_track_time 100 (init 1);
                       span := example_span None |}
  = (Ok (), {| self := set_last_track_time 100 (init 1);
               span := example_span None |}).
Proof.
  apply (throughput_clock_regression 50
           {| self := set_last_track_time 100 (init 1);
              span := example_span None |}).
  simpl. lia.
Defined.

End ThroughputSamplerFacts.

(** * Further properties of the samplers *)

(** ** The rate sampler: hashing, tagging, construction *)

Module RateSamplerLaws.
Import RateSampler RateSamplerFacts.

(** [KNUTH_FACTOR] is odd, hence invertible modulo [2 ^ 64]. *)
Lemma knuth_factor_inverse :
  (KNUTH_FACTOR * 3396998997810348023) mod MAX_TRACE_ID = 1.
Proof. reflexivity. Qed.

Lemma hash_id_inverse (x : Z) :
  0 ≤ x < MAX_TRACE_ID →
  (hash_id x * 3396998997810348023) mod MAX_TRACE_ID = x.
Proof.
  intros Hx. unfold hash_id.
  rewrite Z.mul_mod_idemp_l by discriminate.
  rewrite <- Z.mul_assoc, <- Z.mul_mod_idemp_r by discriminate.
  rewrite knuth_factor_inverse, Z.mul_1_r. apply Z.mod_small, Hx.
Qed.

(** X2. The multiplicative hash of [sample] looks at a trace identifier modulo
    [2 ^ 64] only, and on 64-bit identifiers it is a permutation: different
    identifiers get different processed values and every 64-bit value is
    the processed value of one. *)
Theorem hash_id_permutes_64_bit_ids :
  (∀ a k : Z, hash_id (a + k * 2 ^ 64) = hash_id a)
  ∧ (∀ a b : Z,
        0 ≤ a < 2 ^ 64 → 0 ≤ b < 2 ^ 64 → hash_id a = hash_id b → a = b)
  ∧ (∀ y : Z,
        0 ≤ y < 2 ^ 64 → ∃ x, 0 ≤ x < 2 ^ 64 ∧ hash_id x = y).
Proof.
  split; [| split].
  - intros a k. unfold hash_id. change MAX_TRACE_ID with (2 ^ 64).
    replace ((a + k * 2 ^ 64) * KNUTH_FACTOR)
      with (a * KNUTH_FACTOR + (k * KNUTH_FACTOR) * 2 ^ 64) by ring.
    apply Z.mod_add. discriminate.
  - intros a b Ha Hb Heq.
    rewrite <- (hash_id_inverse a Ha), <- (hash_id_inverse b Hb), Heq.
    reflexivity.
  - intros y Hy. exists ((y * 3396998997810348023) mod MAX_TRACE_ID). split.
    + apply Z.mod_pos_bound. reflexivity.
    + unfold hash_id. rewrite Z.mul_mod_idemp_l by discriminate.
      rewrite <- Z.mul_assoc, <- Z.mul_mod_idemp_r by discriminate.
      rewrite (Z.mul_comm 3396998997810348023), knuth_factor_inverse, Z.mul_1_r.
      apply Z.mod_small, Hy.
Qed.

Lemma hash_id_permutes_64_bit_ids_witness :
  5 = 5 ∧ ∃ x, 0 ≤ x < 2 ^ 64 ∧ hash_id x = 7.
Proof.
  destruct hash_id_permutes_64_bit_ids as (_ & Hinj & Hsurj). split.
  - apply (Hinj 5 5); [lia | lia | reflexivity].
  - apply (Hsurj 7). lia.
Defined.

(** What [sample] leaves alone. *)
Lemma sample_frame (self : t) (rnd : Z) (span : Span) :
  trace_id (sample self rnd span) = trace_id span
  ∧ has_set_metric (sample self rnd span) = has_set_metric span
  ∧ sampling_priority (sample self rnd span) = sampling_priority span.
Proof.
  unfold sample. simpl.
  destruct (has_set_metric span) eqn:Hm; simpl;
    (split; [reflexivity | split; [| reflexivity]]); [exact Hm | exact Hm].
Qed.

(** X3. For a span with a trace identifier [sample] is idempotent: deciding a
    span that the same sampler has already decided changes nothing, neither
    the keep flag nor the tags. *)
Theorem rate_sample_idempotent
    (self : t) (rnd1 rnd2 tid : Z) (span : Span) :
  trace_id span = Some tid →
  sample self rnd2 (sample self rnd1 span) = sample self rnd1 span.
Proof.
  intros Hid. unfold sample, processed_id. simpl.
  destruct (has_set_metric span) eqn:Hm; simpl; rewrite Hid, ?Hm; simpl.
  - unfold set_metric, set_sampled. simpl. rewrite insert_insert_eq.
    reflexivity.
  - reflexivity.
Qed.

Lemma rate_sample_idempotent_witness :
  sample (init 0.5) 11 (sample (init 0.5) 3 (example_span (Some 9)))
  = sample (init 0.5) 3 (example_span (Some 9)).
Proof.
  apply (rate_sample_idempotent (init 0.5) 3 11 9). reflexivity.
Defined.

(** X4. For a span without a trace identifier the decision is the comparison of
    the random value with the threshold, so a second call can overturn the
    first: the last decision is the one the span keeps. *)
Theorem rate_sample_without_id_follows_random
    (self : t) (rnd1 rnd2 : Z) (span : Span) :
  trace_id span = None →
  (inject_Z rnd1 <= sampling_id_threshold self)%Q →
  (sampling_id_threshold self < inject_Z rnd2)%Q →
  sampled (sample self rnd1 span) = Some true
  ∧ sampled (sample self rnd2 span) = Some false
  ∧ sampled (sample self rnd2 (sample self rnd1 span)) = Some false
  ∧ sampled (sample self rnd1 (sample self rnd2 span)) = Some true.
Proof.
  intros Hid H1 H2.
  assert (Hp : ∀ sp rnd, trace_id sp = None → processed_id sp rnd = rnd).
  { intros sp rnd H. unfold processed_id. rewrite H. reflexivity. }
  assert (Hid' : ∀ rnd, trace_id (sample self rnd span) = None).
  { intros rnd. rewrite (proj1 (sample_frame _ _ _)). exact Hid. }
  rewrite !sampled_sample_true, !sampled_sample_false.
  rewrite !Hp by (exact Hid || apply Hid'). repeat split; assumption.
Qed.

Lemma rate_sample_without_id_follows_random_witness :
  sampled (sample (init 0.5) (2 ^ 64 - 1) (sample (init 0.5) 0 (example_span None)))
  = Some false.
Proof.
  apply (rate_sample_without_id_follows_random (init 0.5) 0 (2 ^ 64 - 1)
           (example_span None)).
  - reflexivity.
  - discriminate.
  - reflexivity.
Defined.

(** X5. When the span can be tagged, [sample] records the rate of the sampler
    under [_sample_rate] and leaves every other tag as it was; when it
    cannot, the tags are not touched.  The identifier, the tagging
    capability and the sampling priority are never changed. *)
Theorem rate_sample_records_rate_only (self : t) (rnd : Z) (span : Span) :
  (has_set_metric span = true →
   metrics (sample self rnd span) !! "_sample_rate" = Some (sample_rate self)
   ∧ ∀ key : string,
       key ≠ "_sample_rate" →
       metrics (sample self rnd span) !! key = metrics span !! key)
  ∧ (has_set_metric span = false →
     metrics (sample self rnd span) = metrics span)
  ∧ trace_id (sample self rnd span) = trace_id span
  ∧ has_set_metric (sample self rnd span) = has_set_metric span
  ∧ sampling_priority (sample self rnd span) = sampling_priority span.
Proof.
  split; [| split; [| apply sample_frame]].
  - intros Hm. rewrite sample_records_rate, Hm. split.
    + apply lookup_insert_eq.
    + intros key Hkey. apply lookup_insert_ne. congruence.
  - intros Hm. rewrite sample_records_rate, Hm. reflexivity.
Qed.

Lemma rate_sample_records_rate_only_witness :
  metrics (sample (init 0.25) 0
             (set_metric (example_span (Some 1)) "hits" 4%Q)) !! "hits"
  = Some 4%Q.
Proof.
  destruct (rate_sample_records_rate_only (init 0.25) 0
              (set_metric (example_span (Some 1)) "hits" 4%Q))
    as ((_ & Hother) & _); [reflexivity |].
  rewrite Hother by discriminate. reflexivity.
Defined.


End RateSamplerLaws.

(** ** How the samplers relate *)

Module SamplerInterplay.

Lemma float_rate_threshold_exact_witness :
  ∃ m' e',
    Binary64.mul (S754_finite false (2 ^ 52)%positive (- 53))
                 Binary64.float_of_MAX_TRACE_ID
    = S754_finite false m' e'
    ∧ (Binary64.finite_value false m' e'
       == RateSampler.sampling_id_threshold
            (RateSampler.set_sample_rate (RateSampler.init 1)
               (Binary64.finite_value false (2 ^ 52)%positive (- 53))))%Q.
Proof.
  apply (Binary64Facts.float_rate_threshold_exact (RateSampler.init 1)
           false (2 ^ 52)%positive (- 53)).
  - reflexivity.
  - left. vm_compute. discriminate.
Defined.

(** X7. [AllSampler] makes the decision of a [RateSampler] of rate one on every
    span; the two differ only in that the rate sampler tags a span that can
    be tagged with the rate, and [AllSampler] never tags. *)
Theorem all_sampler_is_untagged_rate_one (rnd : Z) (sp : Span) :
  0 ≤ rnd < 2 ^ 64 →
  sampled (AllSampler.sample sp) = Some true
  ∧ metrics (AllSampler.sample sp) = metrics sp
  ∧ RateSampler.sample (RateSampler.init 1) rnd sp
    = (if has_set_metric sp
       then set_metric (AllSampler.sample sp) "_sample_rate" 1%Q
       else AllSampler.sample sp).
Proof.
  intros Hrnd. split; [reflexivity |]. split; [reflexivity |].
  assert (Hflag : Qle_bool (inject_Z (RateSampler.processed_id sp rnd))
                    (RateSampler.sampling_id_threshold (RateSampler.init 1))
                  = true).
  { apply Qle_bool_iff.
    apply (RateSamplerFacts.below_full_threshold _ 1); [| reflexivity].
    unfold RateSampler.processed_id.
    destruct (trace_id sp); [apply RateSamplerFacts.hash_id_range | exact Hrnd]. }
  unfold RateSampler.sample. rewrite Hflag. simpl.
  destruct (has_set_metric sp); reflexivity.
Qed.

Lemma all_sampler_is_untagged_rate_one_witness :
  RateSampler.sample (RateSampler.init 1) 77 (example_span (Some 5))
  = set_metric (AllSampler.sample (example_span (Some 5))) "_sample_rate" 1%Q.
Proof.
  apply (all_sampler_is_untagged_rate_one 77 (example_span (Some 5))). lia.
Defined.

(** X8. The proxy for distributed traces and the local samplers write to
    different attributes of the span: setting the priority through the
    proxy and deciding with a rate sampler give the same span in either
    order.  Through the proxy the last value set is the one that stays, and
    the priority read back tells which boolean was set. *)
Theorem distributed_priority_independent_of_local_sampling
    (self : RateSampler.t) (rnd : Z) (sp : Span) (b : bool) :
  DistributedSampled.span
    (DistributedSampled.set_sampled
       (DistributedSampled.init (RateSampler.sample self rnd sp)) b)
  = RateSampler.sample self rnd
      (DistributedSampled.span
         (DistributedSampled.set_sampled (DistributedSampled.init sp) b))
  ∧ (∀ b1 b2 : bool,
        DistributedSampled.set_sampled
          (DistributedSampled.set_sampled (DistributedSampled.init sp) b1) b2
        = DistributedSampled.set_sampled (DistributedSampled.init sp) b2)
  ∧ (sampling_priority
       (DistributedSampled.span
          (DistributedSampled.set_sampled (DistributedSampled.init sp) b))
     = Some 1 ↔ b = true).
Proof.
  split; [| split].
  - unfold RateSampler.sample, RateSampler.processed_id. simpl.
    destruct (has_set_metric sp); reflexivity.
  - intros b1 b2. reflexivity.
  - destruct b; simpl; split; congruence.
Qed.

End SamplerInterplay.

(** ** The throughput sampler: bounds, time and the window *)

Module ThroughputSamplerLaws.
Import ThroughputSampler ThroughputSamplerFacts.

(** *** What one call does *)

(** What [decide_span] leaves alone, however it ends. *)
Lemma decide_span_frame (now : Z) (w w' : world) (r : result unit) :
  decide_span now w = (r, w') →
  span w'
  = set_sampled (span w)
      (bool_decide (counter (self w) < buffer_limit (self w)))
  ∧ buffer_limit (self w') = buffer_limit (self w)
  ∧ last_track_time (self w') = last_track_time (self w).
Proof.
  unfold decide_span, mbind, M_bind, gets, modify_span, modify, getitem,
    setitem, modify. simpl.
  case_bool_decide; simpl.
  - destruct (py_index _ _) as [n |]; simpl.
    + destruct (counter_buffer (self w) !! n); simpl.
      * destruct (py_index _ _); [case_bool_decide |];
          intros [= <- <-]; repeat split.
      * intros [= <- <-]. repeat split.
    + intros [= <- <-]. repeat split.
  - intros [= <- <-]. repeat split.
Qed.

(** On a well-formed buffer the decision returns or overflows a bucket. *)
Lemma decide_span_cases (now : Z) (w : world) :
  well_formed (self w) →
  ∃ v, counter_buffer (self w) !! Z.to_nat (key_from_time now) = Some v
       ∧ 0 ≤ v ≤ ULONG_MAX
       ∧ decide_span now w
         = if bool_decide (counter (self w) < buffer_limit (self w))
           then if bool_decide (v < ULONG_MAX)
                then (Ok (),
                      {| self := set_counter_buffer
                                   (<[Z.to_nat (key_from_time now) := v + 1]>
                                      (counter_buffer (self w)))
                                   (set_counter (counter (self w) + 1) (self w));
                         span := set_sampled (span w) true |})
                else (Raise OverflowError,
                      {| self := set_counter (counter (self w) + 1) (self w);
                         span := set_sampled (span w) true |})
           else (Ok (), {| self := self w; span := set_sampled (span w) false |}).
Proof.
  intros Hwf.
  destruct (getitem_key now w Hwf) as (v & Hv & Hr & _).
  exists v. split; [exact Hv |]. split; [exact Hr |].
  case_bool_decide as Hlt; [| apply decide_span_drop, Hlt].
  set (w1 := {| self := set_counter (counter (self w) + 1) (self w);
                span := set_sampled (span w) true |}).
  assert (Hwf1 : well_formed (self w1)) by exact Hwf.
  destruct (getitem_key now w1 Hwf1) as (v' & Hv' & _ & Hget).
  simpl in Hv'. rewrite Hv in Hv'. injection Hv' as <-.
  unfold decide_span. do 2 erewrite bind_Ok by reflexivity.
  rewrite bool_decide_eq_true_2 by exact Hlt.
  do 3 erewrite bind_Ok by reflexivity.
  erewrite bind_Ok by exact Hget.
  case_bool_decide as Hfull.
  - apply (setitem_key now (v + 1) w1); [apply Hwf1 | lia].
  - apply (setitem_key_overflow now (v + 1) w1); [apply Hwf1 | lia].
Qed.

(** One call on a state the invariants hold in: the window advance returns
    and the call ends as the decision on the advanced state does. *)
Lemma sample_from_good (now : Z) (s : t) (sp : Span) :
  well_formed s → balanced s →
  ∃ s1 v,
    well_formed s1 ∧ balanced s1
    ∧ buffer_limit s1 = buffer_limit s
    ∧ last_track_time s1 = Z.max now (last_track_time s)
    ∧ 0 ≤ counter s1 ≤ counter s
    ∧ counter_buffer s1 !! Z.to_nat (key_from_time now) = Some v
    ∧ 0 ≤ v ≤ ULONG_MAX
    ∧ v ≤ counter s1
    ∧ advance_window now {| self := s; span := sp |}
      = (Ok (), {| self := s1; span := sp |})
    ∧ sample_span s now sp
      = if bool_decide (counter s1 < buffer_limit s1)
        then if bool_decide (v < ULONG_MAX)
             then (Ok (),
                   {| self := set_counter_buffer
                                (<[Z.to_nat (key_from_time now) := v + 1]>
                                   (counter_buffer s1))
                                (set_counter (counter s1 + 1) s1);
                      span := set_sampled sp true |})
             else (Raise OverflowError,
                   {| self := set_counter (counter s1 + 1) s1;
                      span := set_sampled sp true |})
        else (Ok (), {| self := s1; span := set_sampled sp false |}).
Proof.
  intros Hwf Hb.
  destruct (advance_window_good now {| self := s; span := sp |} Hwf Hb)
    as ([s1 sp1] & Ha & Hwf1 & Hb1 & Hlim & Hsp & Hlast & Hc & _).
  simpl in *. subst sp1.
  destruct (decide_span_cases now {| self := s1; span := sp |} Hwf1)
    as (v & Hv & Hr & Hd).
  simpl in *. exists s1, v.
  split; [exact Hwf1 |]. split; [exact Hb1 |]. split; [exact Hlim |].
  split; [exact Hlast |]. split; [exact Hc |]. split; [exact Hv |].
  split; [exact Hr |].
  split; [rewrite Hb1; eapply bucket_le_sum; [apply Hwf1 | exact Hv] |].
  split; [exact Ha |].
  unfold sample_span. rewrite (sample_after_advance _ _ _ Ha). exact Hd.
Qed.

Lemma reachable_counter_bounds (tps : Z) (s : t) :
  reachable tps s → 0 ≤ counter s ≤ Z.max 0 (tps * 2).
Proof.
  induction 1 as [| s now sp w Hs IH Hstep].
  - simpl. lia.
  - destruct (reachable_good _ _ Hs) as (Hwf & Hb & Hlim).
    destruct (sample_from_good now s sp Hwf Hb)
      as (s1 & v & _ & _ & Hlim1 & _ & Hc1 & _ & _ & Hv & _ & Heq).
    rewrite Heq in Hstep. rewrite Hlim1, Hlim in Hstep.
    repeat case_bool_decide; try discriminate;
      injection Hstep as <-; simpl; lia.
Qed.

(** *** Errors *)



(** *** Bounds *)



(** X11. A sampler built with [tps <= 0] keeps nothing: every call returns with
    the span dropped, and the running total and all buckets stay at [0]. *)
Theorem non_positive_tps_drops_everything
    (tps now : Z) (s : t) (sp : Span) :
  tps ≤ 0 → reachable tps s →
  ∃ w, sample_span s now sp = (Ok (), w)
       ∧ span w = set_sampled sp false
       ∧ counter (self w) = 0
       ∧ Forall (λ v, v = 0) (counter_buffer (self w)).
Proof.
  intros Htps Hs. destruct (reachable_good _ _ Hs) as (Hwf & Hb & Hlim).
  pose proof (reachable_counter_bounds _ _ Hs) as Hc.
  destruct (sample_from_good now s sp Hwf Hb)
    as (s1 & v & Hwf1 & Hb1 & Hlim1 & _ & Hc1 & _ & _ & _ & _ & Heq).
  rewrite Heq. rewrite bool_decide_eq_false_2 by lia.
  eexists. split; [reflexivity |]. simpl. split; [reflexivity |].
  assert (Hz : counter s1 = 0) by lia. split; [exact Hz |].
  apply Forall_lookup. intros n x Hx.
  pose proof (proj1 (Forall_lookup _ _) (proj2 Hwf1) _ _ Hx) as Hx0.
  pose proof (bucket_le_sum _ _ _ (proj2 Hwf1) Hx) as Hle.
  rewrite <- Hb1 in Hle. simpl in Hx0. lia.
Qed.

Lemma non_positive_tps_drops_everything_witness :
  ∃ w, sample_span (init (-2)) 7 (example_span None) = (Ok (), w)
       ∧ span w = set_sampled (example_span None) false
       ∧ counter (self w) = 0
       ∧ Forall (λ v, v = 0) (counter_buffer (self w)).
Proof.
  apply (non_positive_tps_drops_everything (-2) 7 (init (-2))).
  - lia.
  - apply reachable_init.
Defined.

(** *** Time *)

(** X12. However a call ends, the last tracked tick becomes the later of the tick
    of the call and the tick tracked before, so it never goes back; the
    limit is not changed, and of the span only the keep flag is written. *)
Theorem sample_tracks_latest_tick
    (tps now : Z) (s : t) (sp : Span) (r : result unit) (w : world) :
  reachable tps s →
  sample_span s now sp = (r, w) →
  last_track_time (self w) = Z.max now (last_track_time s)
  ∧ last_track_time s ≤ last_track_time (self w)
  ∧ buffer_limit (self w) = buffer_limit s
  ∧ ∃ b : bool, span w = set_sampled sp b.
Proof.
  intros Hs Hstep. destruct (reachable_good _ _ Hs) as (Hwf & Hb & _).
  destruct (sample_from_good now s sp Hwf Hb)
    as (s1 & v & _ & _ & Hlim1 & Hlast & _ & _ & _ & _ & _ & Heq).
  rewrite Heq in Hstep.
  repeat case_bool_decide; injection Hstep as <- <-; simpl;
    (split; [exact Hlast |]); (split; [lia |]); (split; [exact Hlim1 |]);
    eexists; reflexivity.
Qed.

Lemma sample_tracks_latest_tick_witness :
  last_track_time (self (sample_span (init 1) 7 (example_span None)).2)
  = Z.max 7 (last_track_time (init 1)).
Proof.
  apply (sample_tracks_latest_tick 1 7 (init 1) (example_span None) (Ok ())).
  - apply reachable_init.
  - vm_compute. reflexivity.
Defined.

(** X13. A sampler that is at its limit is not changed by a call for the current
    or an earlier tick: the span is dropped and no attribute of the sampler
    is written. *)
Theorem saturated_sample_changes_nothing (now : Z) (s : t) (sp : Span) :
  now ≤ last_track_time s →
  buffer_limit s ≤ counter s →
  sample_span s now sp
  = (Ok (), {| self := s; span := set_sampled sp false |}).
Proof.
  intros Hnow Hfull. unfold sample_span.
  rewrite (sample_after_advance now _ {| self := s; span := sp |})
    by (apply advance_window_noop; exact Hnow).
  apply decide_span_drop. simpl. lia.
Qed.

Lemma saturated_sample_changes_nothing_witness :
  sample_span (set_counter 2 (init 1)) 0 (example_span None)
  = (Ok (), {| self := set_counter 2 (init 1);
               span := set_sampled (example_span None) false |}).
Proof.
  apply saturated_sample_changes_nothing; vm_compute; discriminate.
Defined.

(** *** Keys *)

(** X14. [key_from_time] maps every tick, negative ones included, to an index of
    the buffer; ticks 20 apart share a key, and two different ticks less
    than 20 apart never do. *)
Theorem key_from_time_separates_window :
  (∀ t : Z, 0 ≤ key_from_time t < 20)
  ∧ (∀ t : Z, key_from_time (t + 20) = key_from_time t)
  ∧ (∀ t1 t2 : Z,
        t1 ≠ t2 → - 20 < t1 - t2 < 20 →
        key_from_time t1 ≠ key_from_time t2).
Proof.
  split; [apply key_from_time_range |]. unfold key_from_time.
  change BUFFER_SIZE with 20. split.
  - intros t. Z.div_mod_to_equations. lia.
  - intros t1 t2 Hk Hd. Z.div_mod_to_equations. lia.
Qed.

Lemma key_from_time_separates_window_witness :
  key_from_time (- 3) ≠ key_from_time 16.
Proof.
  apply (proj2 (proj2 key_from_time_separates_window) (- 3) 16); lia.
Defined.

(** *** Expiry, bucket by bucket *)

(** The loop leaves the buckets it does not visit as they are. *)
Lemma expire_loop_frame (start : Z) (l : list Z) (w w' : world) (n : nat) :
  well_formed (self w) →
  for_ l (expire_bucket start) w = (Ok (), w') →
  (∀ i, i ∈ l → Z.to_nat (key_from_time (start + i + 1)) ≠ n) →
  counter_buffer (self w') !! n = counter_buffer (self w) !! n.
Proof.
  revert w. induction l as [| i l IH]; intros w Hwf Hrun Hn.
  - injection Hrun as <-. reflexivity.
  - simpl in Hrun. apply bind_inv_Ok in Hrun as ([] & w1 & H1 & Hrun).
    pose proof (expire_bucket_well_formed _ _ _ _ Hwf H1) as Hwf1.
    rewrite (IH w1 Hwf1 Hrun) by (intros j Hj; apply Hn; right; exact Hj).
    apply expire_bucket_Ok_inv in H1 as (n1 & v & Hn1 & _ & _ & Hbuf & _).
    destruct Hwf as [Hlen _]. rewrite Hlen in Hn1.
    change (Z.to_nat BUFFER_SIZE) with 20%nat in Hn1.
    rewrite py_index_key in Hn1. injection Hn1 as <-.
    rewrite Hbuf. apply list_lookup_insert_ne.
    apply Hn. left.
Qed.

Lemma visited_iff (start end_ k : Z) :
  0 ≤ k < 20 →
  visited start end_ k
  ↔ ∃ i, i ∈ seqZ 0 (period start end_)
         ∧ Z.to_nat (key_from_time (start + i + 1)) = Z.to_nat k.
Proof.
  intros Hk. unfold visited. change BUFFER_SIZE with 20. split.
  - intros Hv. exists ((k - start - 1) mod 20). split.
    + apply elem_of_seqZ.
      pose proof (Z.mod_pos_bound (k - start - 1) 20). lia.
    + f_equal. unfold key_from_time. change BUFFER_SIZE with 20.
      Z.div_mod_to_equations. lia.
  - intros (i & Hi & Hkey). apply elem_of_seqZ in Hi.
    pose proof (key_from_time_range (start + i + 1)) as Hr.
    assert (Hkey' : key_from_time (start + i + 1) = k) by lia.
    assert (Hp : period start end_ ≤ 20)
      by (unfold period; change BUFFER_SIZE with 20; lia).
    unfold key_from_time in Hkey'. change BUFFER_SIZE with 20 in Hkey'.
    assert ((k - start - 1) mod 20 = i)
      by (Z.div_mod_to_equations; lia).
    lia.
Qed.

(** The window advance for a later tick: the visited buckets end at zero
    and the others are as before. *)
Lemma advance_window_buckets (now : Z) (s : t) (sp : Span) :
  well_formed s → balanced s → last_track_time s < now →
  ∃ s1, advance_window now {| self := s; span := sp |}
        = (Ok (), {| self := s1; span := sp |})
        ∧ ∀ k, 0 ≤ k < 20 →
               counter_buffer s1 !! Z.to_nat k
               = if bool_decide (visited (last_track_time s) now k)
                 then Some 0
                 else counter_buffer s !! Z.to_nat k.
Proof.
  intros Hwf Hb Hlt.
  set (w0 := {| self := set_last_track_time now s; span := sp |}).
  destruct (expire_loop (last_track_time s)
              (seqZ 0 (period (last_track_time s) now)) w0)
    as ([s1 sp1] & Hrun & _ & _ & _ & _ & Hsp & _ & Hz);
    [exact Hwf | exact Hb |].
  simpl in Hsp. subst sp1. exists s1. split.
  { unfold advance_window. erewrite bind_Ok by reflexivity.
    rewrite bool_decide_eq_true_2 by (simpl; lia).
    erewrite bind_Ok by reflexivity. exact Hrun. }
  intros k Hk. case_bool_decide as Hv.
  - apply (Hz (Z.to_nat k)). right. apply visited_iff; assumption.
  - apply (expire_loop_frame _ _ w0 _ _ Hwf Hrun).
    intros i Hi Hkey. apply Hv, visited_iff; [exact Hk |].
    exists i. split; assumption.
Qed.

(** X15. When the window moves on to a later tick, the bucket of a tick of the
    old window keeps its count if the tick is still among the last 20 and
    is set to zero if it is not: a span stays counted for the tick it was
    kept in and the 19 ticks after it. *)
Theorem advance_expires_ticks_out_of_window
    (tps now tick : Z) (s : t) (sp : Span) :
  reachable tps s →
  last_track_time s < now →
  last_track_time s - 20 < tick ≤ last_track_time s →
  ∃ s1, advance_window now {| self := s; span := sp |}
        = (Ok (), {| self := s1; span := sp |})
        ∧ counter_buffer s1 !! Z.to_nat (key_from_time tick)
          = if bool_decide (now - 20 < tick)
            then counter_buffer s !! Z.to_nat (key_from_time tick)
            else Some 0.
Proof.
  intros Hs Hlt Htick. destruct (reachable_good _ _ Hs) as (Hwf & Hb & _).
  destruct (advance_window_buckets now s sp Hwf Hb Hlt) as (s1 & Ha & Hk).
  exists s1. split; [exact Ha |].
  rewrite (Hk _ (key_from_time_range tick)).
  assert (Hiff : visited (last_track_time s) now (key_from_time tick)
                 ↔ ¬ now - 20 < tick).
  { unfold visited, period, key_from_time. change BUFFER_SIZE with 20.
    split; intros H; Z.div_mod_to_equations; lia. }
  repeat case_bool_decide; tauto.
Qed.

Lemma advance_expires_ticks_out_of_window_witness :
  ∃ s1, advance_window 25 {| self := (sample_span (init 1) 7
                                        (example_span None)).2.(self);
                             span := example_span None |}
        = (Ok (), {| self := s1; span := example_span None |})
        ∧ counter_buffer s1 !! Z.to_nat (key_from_time 7)
          = if bool_decide (25 - 20 < 7)
            then counter_buffer (sample_span (init 1) 7
                                   (example_span None)).2.(self)
                   !! Z.to_nat (key_from_time 7)
            else Some 0.
Proof.
  apply (advance_expires_ticks_out_of_window 1).
  - apply (reachable_sample 1 (init 1) 7 (example_span None)).
    + apply reachable_init.
    + vm_compute. reflexivity.
  - vm_compute. reflexivity.
  - vm_compute. split; [reflexivity | discriminate].
Defined.

(** *** Counting decisions *)

Section Counting.
Context {A : Type} (P Q : A → Prop) `{∀ x, Decision (P x)}
  `{∀ x, Decision (Q x)}.

Lemma count_ext (l : list A) :
  Forall (λ x, P x ↔ Q x) l → length (filter P l) = length (filter Q l).
Proof.
  induction 1 as [| x l Hx Hl IH]; [reflexivity |].
  rewrite !filter_cons.
  destruct (decide (P x)), (decide (Q x)); simpl; try tauto; lia.
Qed.


Lemma count_none (l : list A) :
  Forall (λ x, ¬ P x) l → length (filter P l) = 0%nat.
Proof.
  induction 1 as [| x l Hx Hl IH]; [reflexivity |].
  rewrite filter_cons. destruct (decide (P x)); [tauto | exact IH].
Qed.

End Counting.

Lemma count_bucket_cons (T k : Z) (e : Z * bool) (hist : list (Z * bool)) :
  Z.of_nat (count_bucket T k (e :: hist))
  = Z.of_nat (count_bucket T k hist)
    + (if decide (kept_in_window T e)
       then if decide (key_from_time e.1 = k) then 1 else 0
       else 0).
Proof.
  unfold count_bucket. rewrite filter_cons. unfold kept_in_bucket at 1.
  destruct (decide (kept_in_window T e ∧ key_from_time e.1 = k))
    as [[Hw Hk] | Hn];
    destruct (decide (kept_in_window T e));
    destruct (decide (key_from_time e.1 = k)); simpl; try tauto; lia.
Qed.

Lemma count_window_cons (T : Z) (e : Z * bool) (hist : list (Z * bool)) :
  Z.of_nat (count_window T (e :: hist))
  = Z.of_nat (count_window T hist)
    + (if decide (kept_in_window T e) then 1 else 0).
Proof.
  unfold count_window. rewrite filter_cons.
  destruct (decide (kept_in_window T e)); simpl; lia.
Qed.

(** Moving the window from tick [T] to a later tick [now]: the count of a
    visited key drops to zero, the count of any other key is as before. *)
Lemma count_bucket_advance (T now k : Z) (hist : list (Z * bool)) :
  Forall (λ e, e.1 ≤ T) hist → T < now → 0 ≤ k < 20 →
  count_bucket now k hist
  = if bool_decide (visited T now k) then 0%nat else count_bucket T k hist.
Proof.
  intros Hhist Hlt Hk. unfold count_bucket. case_bool_decide as Hv.
  - apply count_none. eapply Forall_impl; [exact Hhist |].
    intros [t b] Ht. simpl in Ht.
    unfold kept_in_bucket, kept_in_window, visited, period, key_from_time in *.
    change BUFFER_SIZE with 20 in *. simpl.
    intros ((_ & Hw) & Hkey). Z.div_mod_to_equations. lia.
  - apply count_ext. eapply Forall_impl; [exact Hhist |].
    intros [t b] Ht. simpl in Ht.
    unfold kept_in_bucket, kept_in_window, visited, period, key_from_time in *.
    change BUFFER_SIZE with 20 in *. simpl.
    split; intros ((Hb & Hw) & Hkey); (split; [split; [exact Hb |] | exact Hkey]);
      Z.div_mod_to_equations; lia.
Qed.

(** Each tick of the window has a key of its own, so the counts of the keys
    add up to the count of the window. *)
Lemma key_indicator_sum (c : Z) :
  0 ≤ c < 20 →
  sum_buckets (map (λ k, if decide (c = k) then 1 else 0) (seqZ 0 20)) = 1.
Proof.
  intros Hc.
  assert (Hcases : c = 0 ∨ c = 1 ∨ c = 2 ∨ c = 3 ∨ c = 4 ∨ c = 5 ∨ c = 6
                   ∨ c = 7 ∨ c = 8 ∨ c = 9 ∨ c = 10 ∨ c = 11 ∨ c = 12
                   ∨ c = 13 ∨ c = 14 ∨ c = 15 ∨ c = 16 ∨ c = 17 ∨ c = 18
                   ∨ c = 19) by lia.
  repeat (destruct Hcases as [-> | Hcases]; [reflexivity |]).
  subst c. reflexivity.
Qed.

Lemma sum_count_bucket_cons (T : Z) (e : Z * bool) (hist : list (Z * bool))
    (ks : list Z) :
  sum_buckets (map (λ k, Z.of_nat (count_bucket T k (e :: hist))) ks)
  = sum_buckets (map (λ k, Z.of_nat (count_bucket T k hist)) ks)
    + (if decide (kept_in_window T e)
       then sum_buckets
              (map (λ k, if decide (key_from_time e.1 = k) then 1 else 0) ks)
       else 0).
Proof.
  induction ks as [| k ks IH].
  - simpl. destruct (decide (kept_in_window T e)); reflexivity.
  - simpl. rewrite IH, count_bucket_cons.
    destruct (decide (kept_in_window T e)); simpl; lia.
Qed.

Lemma sum_count_bucket (T : Z) (hist : list (Z * bool)) :
  sum_buckets (map (λ k, Z.of_nat (count_bucket T k hist)) (seqZ 0 20))
  = Z.of_nat (count_window T hist).
Proof.
  induction hist as [| e hist IH]; [reflexivity |].
  rewrite sum_count_bucket_cons, count_window_cons, IH.
  destruct (decide (kept_in_window T e)); [| reflexivity].
  rewrite key_indicator_sum by apply key_from_time_range. reflexivity.
Qed.

(** *** The sliding window *)

Lemma timeline_reachable (tps : Z) (hist : list (Z * bool)) (s : t) :
  timeline tps hist s → reachable tps s.
Proof.
  induction 1 as [| hist s now sp w b _ IH _ Hstep _].
  - apply reachable_init.
  - eapply reachable_sample; eassumption.
Qed.

(** With a clock that does not go back, the last tracked tick is the tick of
    the latest call, no decision is later than it, and the bucket of each
    key holds the number of spans kept at the tick of the window that has
    this key. *)
Lemma timeline_invariant (tps : Z) (hist : list (Z * bool)) (s : t) :
  timeline tps hist s →
  last_track_time s = match hist with [] => 0 | e :: _ => e.1 end
  ∧ Forall (λ e, e.1 ≤ last_track_time s) hist
  ∧ ∀ k, 0 ≤ k < 20 →
         counter_buffer s !! Z.to_nat k
         = Some (Z.of_nat (count_bucket (last_track_time s) k hist)).
Proof.
  induction 1 as [| hist s now sp w b Hs (Hlast & Hall & Hbk) Hnow Hstep Hflag].
  - split; [reflexivity |]. split; [constructor |].
    intros k Hk.
    change (replicate 20 0 !! Z.to_nat k = Some 0).
    apply lookup_replicate_2. lia.
  - destruct (reachable_good _ _ (timeline_reachable _ _ _ Hs)) as (Hwf & Hb & _).
    destruct (sample_from_good now s sp Hwf Hb)
      as (s1 & v & Hwf1 & _ & _ & Hlast1 & _ & Hv & _ & _ & Ha & Heq).
    rewrite Z.max_l in Hlast1 by exact Hnow.
    assert (Hbk1 : ∀ k, 0 ≤ k < 20 →
                     counter_buffer s1 !! Z.to_nat k
                     = Some (Z.of_nat (count_bucket now k hist))).
    { intros k Hk.
      destruct (decide (last_track_time s < now)) as [Hlt | Hge].
      - destruct (advance_window_buckets now s sp Hwf Hb Hlt) as (s2 & Ha2 & Hk2).
        rewrite Ha in Ha2. injection Ha2 as <-.
        rewrite (Hk2 k Hk), (count_bucket_advance _ _ _ _ Hall Hlt Hk).
        destruct (bool_decide (visited (last_track_time s) now k));
          [reflexivity | apply Hbk, Hk].
      - assert (Heqt : now = last_track_time s) by lia.
        rewrite (advance_window_noop now {| self := s; span := sp |}) in Ha
          by (simpl; lia).
        injection Ha as <-. rewrite Heqt. apply Hbk, Hk. }
    assert (Hall1 : Forall (λ e : Z * bool, e.1 ≤ now) ((now, b) :: hist)).
    { constructor; [simpl; lia |].
      eapply Forall_impl; [exact Hall |]. simpl. intros e He. lia. }
    rewrite Heq in Hstep.
    case_bool_decide as Hlt; [case_bool_decide as Hfull |];
      try discriminate; injection Hstep as <-; simpl in Hflag |- *;
      injection Hflag as <-; rewrite Hlast1;
      (split; [reflexivity |]); (split; [exact Hall1 |]);
      intros k Hk; rewrite count_bucket_cons.
    + pose proof (key_from_time_range now) as Hkn.
      destruct (decide (kept_in_window now (now, true))) as [_ | Hn].
      2:{ exfalso. apply Hn. unfold kept_in_window. simpl.
          change BUFFER_SIZE with 20. split; [reflexivity | lia]. }
      simpl. destruct (decide (key_from_time now = k)) as [<- | Hne].
      * rewrite list_lookup_insert_eq by (apply (lookup_lt_Some _ _ _ Hv)).
        rewrite (Hbk1 _ Hkn) in Hv. injection Hv as <-. f_equal.
      * rewrite list_lookup_insert_ne by lia.
        rewrite (Hbk1 k Hk). f_equal. lia.
    + destruct (decide (kept_in_window now (now, false))) as [[Hf _] | _];
        [discriminate Hf |].
      rewrite (Hbk1 k Hk). f_equal. lia.
Qed.

Lemma timeline_counter (tps : Z) (hist : list (Z * bool)) (s : t) :
  timeline tps hist s →
  counter s = Z.of_nat (count_window (last_track_time s) hist).
Proof.
  intros Hs. destruct (timeline_invariant _ _ _ Hs) as (_ & _ & Hbk).
  destruct (reachable_good _ _ (timeline_reachable _ _ _ Hs))
    as ((Hlen & _) & Hb & _).
  rewrite Hb, <- sum_count_bucket. f_equal.
  apply list_eq. intros i.
  destruct (decide (i < 20)%nat) as [Hi | Hi].
  - rewrite list_lookup_fmap, (lookup_seqZ_lt 0 20 i) by lia.
    replace i with (Z.to_nat (Z.of_nat i)) at 1 by apply Nat2Z.id.
    rewrite (Hbk (Z.of_nat i)) by lia. reflexivity.
  - rewrite lookup_ge_None_2 by (rewrite Hlen; change (Z.to_nat BUFFER_SIZE) with 20%nat; lia).
    rewrite lookup_ge_None_2; [reflexivity |].
    rewrite length_map, length_seqZ. lia.
Qed.

Lemma timeline_example :
  timeline 1 [(7, true)] (self (sample_span (init 1) 7 (example_span None)).2).
Proof.
  apply (timeline_sample 1 [] (init 1) 7 (example_span None)).
  - apply timeline_init.
  - vm_compute. discriminate.
  - vm_compute. reflexivity.
  - reflexivity.
Defined.

(** X16. With a clock that does not go back, the running total is the number of
    spans kept in the 20 ticks that end with the last tracked tick, and the
    bucket of each key holds the number of them kept at the tick with that
    key. *)
Theorem running_total_counts_kept_in_window
    (tps : Z) (hist : list (Z * bool)) (s : t) :
  timeline tps hist s →
  counter s = Z.of_nat (count_window (last_track_time s) hist)
  ∧ ∀ k, 0 ≤ k < 20 →
         counter_buffer s !! Z.to_nat k
         = Some (Z.of_nat (count_bucket (last_track_time s) k hist)).
Proof.
  intros Hs. split; [apply (timeline_counter _ _ _ Hs) |].
  apply (timeline_invariant _ _ _ Hs).
Qed.

Lemma running_total_counts_kept_in_window_witness :
  counter (self (sample_span (init 1) 7 (example_span None)).2)
  = Z.of_nat
      (count_window
         (last_track_time (self (sample_span (init 1) 7 (example_span None)).2))
         [(7, true)]).
Proof.
  apply (running_total_counts_kept_in_window 1 [(7, true)]).
  apply timeline_example.
Defined.



(** *** Bursts *)

(** X18. Units of one tick are served first come, first kept: the run returns
    for every unit, and with [c] the running total once the window has
    moved to the tick, unit number [i] is kept exactly when
    [c + i < tps * 2]; after the first dropped unit every unit of the tick
    is dropped. *)
Theorem burst_keeps_first_come
    (tps now : Z) (s : t) (units : list (Z * Span)) :
  reachable tps s → tps * 2 ≤ ULONG_MAX →
  Forall (λ u, u.1 = now) units →
  ∃ sps s' c,
    run s units = (sps, Ok (), s')
    ∧ length sps = length units
    ∧ 0 ≤ c ≤ counter s
    ∧ (∀ (i : nat) (sp : Span),
          sps !! i = Some sp →
          sampled sp = Some (bool_decide (c + Z.of_nat i < tps * 2)))
    ∧ (∀ (i j : nat) (spi spj : Span),
          (i ≤ j)%nat → sps !! i = Some spi → sps !! j = Some spj →
          sampled spi = Some false → sampled spj = Some false).
Proof.
  intros Hs Hmax Hunits.
  destruct (reachable_good _ _ Hs) as (Hwf & Hb & Hlim).
  pose proof (reachable_counter_bounds _ _ Hs) as Hc.
  assert (Hgoal : ∃ sps s' c,
             run s units = (sps, Ok (), s')
             ∧ length sps = length units
             ∧ 0 ≤ c ≤ counter s
             ∧ ∀ (i : nat) (sp : Span),
                 sps !! i = Some sp →
                 sampled sp = Some (bool_decide (c + Z.of_nat i < tps * 2))).
  { destruct units as [| [now' sp0] units].
    - exists [], s, (counter s). split; [reflexivity |].
      split; [reflexivity |]. split; [lia |]. intros i sp Hi. discriminate.
    - pose proof (Forall_inv Hunits) as Hnow. simpl in Hnow. subst now'.
      destruct (run_settle now s sp0 Hwf Hb)
        as (s1 & Hwf1 & Hb1 & Hlim1 & Hlast1 & Hc1 & _ & Hrun).
      destruct (run_same_tick_settled now _ Hunits s1 Hwf1 Hb1 Hlast1)
        as (sps & s' & Hr & Hlen & Hat & _); [lia |].
      exists sps, s', (counter s1). rewrite Hrun.
      split; [exact Hr |]. split; [exact Hlen |]. split; [exact Hc1 |].
      intros i sp Hi. rewrite (Hat _ _ Hi), Hlim1, Hlim. reflexivity. }
  destruct Hgoal as (sps & s' & c & Hr & Hlen & Hc0 & Hat).
  exists sps, s', c. split; [exact Hr |]. split; [exact Hlen |].
  split; [exact Hc0 |]. split; [exact Hat |].
  intros i j spi spj Hij Hi Hj Hdrop.
  rewrite (Hat _ _ Hi) in Hdrop. rewrite (Hat _ _ Hj).
  injection Hdrop as Hdrop. apply bool_decide_eq_false_1 in Hdrop.
  f_equal. apply bool_decide_eq_false_2. lia.
Qed.

Lemma burst_keeps_first_come_witness :
  ∃ sps s' c,
    run (init 1) [(7, example_span None); (7, example_span None);
                  (7, example_span None)] = (sps, Ok (), s')
    ∧ length sps = 3%nat
    ∧ 0 ≤ c ≤ counter (init 1)
    ∧ (∀ (i : nat) (sp : Span),
          sps !! i = Some sp →
          sampled sp = Some (bool_decide (c + Z.of_nat i < 1 * 2)))
    ∧ (∀ (i j : nat) (spi spj : Span),
          (i ≤ j)%nat → sps !! i = Some spi → sps !! j = Some spj →
          sampled spi = Some false → sampled spj = Some false).
Proof.
  apply (burst_keeps_first_come 1 7 (init 1)).
  - apply reachable_init.
  - vm_compute. discriminate.
  - repeat constructor.
Defined.

End ThroughputSamplerLaws.
